(** * Revamp Studio: render planning, encoder negotiation and auto-zoom

    A shallow embedding of the algorithmic core of the repository:

    - [src/packages/render-engine/src/index.ts]: [pickEncoder], the
      piecewise zoom expressions, the filter graph, [createRenderPlan],
      [runRender];
    - [src/packages/recording-engine/src/index.ts]: [buildAutoZooms];
    - [src/unnamed/part_003] (the editor engine): [clamp], [getZoomAtTime],
      [computeViewTransform];
    - [src/unnamed/part_001] (the render service with encoder fallback):
      [buildEncoderAttempts] and the retry loop of [renderProjectToMp4];
    - [src/unnamed/part_005] (the core types): the records.

    JavaScript numbers are idealised as exact rationals ([Q]); the integer
    fields of the export settings are [Z].  Strings are [string].  The
    file system and the transcoder process are explicit state. *)

From Stdlib Require Import ZArith QArith Qminmax Qround Qabs Lqa Lia.
From Stdlib Require Import List String Ascii Bool Sorted.
From Stdlib Require Import Permutation SetoidList SetoidPermutation.
From Stdlib Require Import DecimalString.
Import ListNotations.

(* ================================================================= *)
(** * Part I: definitions *)
(* ================================================================= *)

(** ** JavaScript primitives used by the sources *)

Module JS.

(** [Math.round]: nearest integer, ties towards +infinity. *)
Definition Math_round (x : Q) : Z := Qfloor (x + (1 # 2)).

(** [Math.floor((n - 2) / 2)] on integers is floor division. *)
Definition floor_half (n : Z) : Z := (n / 2)%Z.

(** [String(n)] / template interpolation of an integer. *)
Definition show_Z (z : Z) : string := NilZero.string_of_int (Z.to_int z).

Definition pow10 (places : nat) : Z := (10 ^ Z.of_nat places)%Z.

(** A number printed with a fixed count of decimals: the result of
    [Number.prototype.toFixed], and also literals such as ["1"] or
    ["0.5"] that occur in the generated expressions.  The numeral
    denotes [(-1)^neg * digits / 10^places]. *)
Record Decimal : Type := mkDecimal
  { d_neg : bool; d_digits : Z; d_places : nat }.

Definition decimal_value (d : Decimal) : Q :=
  let magnitude := inject_Z (d_digits d) / inject_Z (pow10 (d_places d)) in
  if d_neg d then - magnitude else magnitude.

(** [x.toFixed(places)]: the sign is split off, then the integer [n]
    closest to [|x| * 10^places] is taken, the larger one on a tie.
    (The exponential form used for [|x| >= 1e21] is outside the model.) *)
Definition toFixed (x : Q) (places : nat) : Decimal :=
  {| d_neg := negb (Qle_bool 0 x);
     d_digits := Qfloor (Qabs x * inject_Z (pow10 places) + (1 # 2));
     d_places := places |}.

Fixpoint zeros (n : nat) : string :=
  match n with
  | O => EmptyString
  | S k => String "0" (zeros k)
  end.

Definition pad_left (width : nat) (s : string) : string :=
  (zeros (width - String.length s) ++ s)%string.

Definition show_decimal (d : Decimal) : string :=
  let p := pow10 (d_places d) in
  let whole := show_Z (d_digits d / p) in
  let frac := pad_left (d_places d) (show_Z (d_digits d mod p)) in
  ((if d_neg d then "-" else "") ++ whole ++
   match d_places d with
   | O => ""
   | S _ => "." ++ frac
   end)%string.

(** [Array.prototype.join]. *)
Fixpoint join (sep : string) (parts : list string) : string :=
  match parts with
  | [] => EmptyString
  | [p] => p
  | p :: rest => (p ++ sep ++ join sep rest)%string
  end.

(** [Array.prototype.includes] on strings. *)
Definition includes (xs : list string) (x : string) : bool :=
  existsb (String.eqb x) xs.

(** [s.replace("#", "0x")]: only the first occurrence. *)
Fixpoint replace_hash (s : string) : string :=
  match s with
  | EmptyString => EmptyString
  | String c rest =>
      if Ascii.eqb c "#" then ("0x" ++ rest)%string
      else String c (replace_hash rest)
  end.

(** [s.replaceAll(",", "\\,")]. *)
Fixpoint replace_commas (s : string) : string :=
  match s with
  | EmptyString => EmptyString
  | String c rest =>
      if Ascii.eqb c "," then String "\" (String "," (replace_commas rest))
      else String c (replace_commas rest)
  end.

(** [hay] has [needle] as a contiguous part. *)
Definition mentions (hay needle : string) : Prop :=
  exists before after, hay = (before ++ needle ++ after)%string.

End JS.

(** ** Core types ([src/unnamed/part_005]) *)

Inductive AutoZoomSignal : Type := sig_click | sig_typing | sig_focus.

Inductive ZoomMode : Type := mode_auto | mode_manual.

Record Target : Type := mkTarget { xNorm : Q; yNorm : Q }.

Record ZoomSegment : Type := mkZoom
  { id : string;
    startMs : Q;
    endMs : Q;
    level : Q;
    mode : ZoomMode;
    manualTarget : option Target;
    instant : bool;
    disabled : bool;
    sourceSignal : option AutoZoomSignal }.

Inductive EventKind : Type := kind_click | kind_typing | kind_focus | kind_cursor.

Record RecordingEvent : Type := mkEvent
  { ev_id : string;
    kind : EventKind;
    atMs : Q;
    ev_xNorm : option Q;
    ev_yNorm : option Q }.

Inductive BackgroundType : Type :=
  bg_wallpaper | bg_gradient | bg_color | bg_image | bg_none.

Record BackgroundSettings : Type := mkBackground
  { bg_type : BackgroundType;
    gradientFrom : string;
    color : string;
    padding : Q;
    inset : Q }.

Inductive EncoderHint : Type :=
  hint_auto | hint_nvenc | hint_qsv | hint_amf | hint_mpeg4.

Record ExportSettings : Type := mkExport
  { width : Z; height : Z; fps : Z; encoderHint : EncoderHint }.

Record Timeline : Type := mkTimeline
  { zooms : list ZoomSegment; background : BackgroundSettings }.

Record ProjectFileV1 : Type := mkProject
  { timeline : Timeline; export : ExportSettings }.

Definition signal_eqb (a b : AutoZoomSignal) : bool :=
  match a, b with
  | sig_click, sig_click | sig_typing, sig_typing | sig_focus, sig_focus => true
  | _, _ => false
  end.

(** [last.sourceSignal === segment.sourceSignal] on optional fields. *)
Definition sourceSignal_eqb (a b : option AutoZoomSignal) : bool :=
  match a, b with
  | Some x, Some y => signal_eqb x y
  | None, None => true
  | _, _ => false
  end.

(** ** Encoder negotiation *)

Inductive EncoderChoice : Type :=
  h264_nvenc | h264_qsv | h264_amf | libx264 | mpeg4.

Definition encoderName (e : EncoderChoice) : string :=
  match e with
  | h264_nvenc => "h264_nvenc"
  | h264_qsv => "h264_qsv"
  | h264_amf => "h264_amf"
  | libx264 => "libx264"
  | mpeg4 => "mpeg4"
  end.

Definition encoder_eqb (a b : EncoderChoice) : bool :=
  match a, b with
  | h264_nvenc, h264_nvenc | h264_qsv, h264_qsv | h264_amf, h264_amf
  | libx264, libx264 | mpeg4, mpeg4 => true
  | _, _ => false
  end.

Definition hint_eqb (a b : EncoderHint) : bool :=
  match a, b with
  | hint_auto, hint_auto | hint_nvenc, hint_nvenc | hint_qsv, hint_qsv
  | hint_amf, hint_amf | hint_mpeg4, hint_mpeg4 => true
  | _, _ => false
  end.

(** [pickEncoder] of the render engine: [available] is a [string[]]. *)
Definition pickEncoder (available : list string) (hint : EncoderHint)
  : EncoderChoice :=
  if hint_eqb hint hint_nvenc && JS.includes available "h264_nvenc" then h264_nvenc
  else if hint_eqb hint hint_qsv && JS.includes available "h264_qsv" then h264_qsv
  else if hint_eqb hint hint_amf && JS.includes available "h264_amf" then h264_amf
  else if hint_eqb hint hint_mpeg4 && JS.includes available "mpeg4" then mpeg4
  else
    match find (fun candidate => JS.includes available (encoderName candidate))
               [h264_nvenc; h264_qsv; h264_amf] with
    | Some candidate => candidate
    | None => if JS.includes available "libx264" then libx264 else mpeg4
    end.

Definition ENCODER_PRIORITY : list EncoderChoice :=
  [h264_nvenc; h264_qsv; h264_amf; libx264; mpeg4].

Definition includes_encoder (xs : list EncoderChoice) (x : EncoderChoice) : bool :=
  existsb (encoder_eqb x) xs.

(** The local closure [push] of [buildEncoderAttempts], with the array it
    mutates passed explicitly. *)
Definition push (attempts : list EncoderChoice) (encoder : EncoderChoice)
  : list EncoderChoice :=
  if includes_encoder attempts encoder then attempts else attempts ++ [encoder].

(** [buildEncoderAttempts] of [src/unnamed/part_001]. *)
Definition buildEncoderAttempts (available : list EncoderChoice)
  (preferred : EncoderChoice) : list EncoderChoice :=
  let attempts := push [] preferred in
  let attempts :=
    fold_left
      (fun attempts encoder =>
         if includes_encoder available encoder then push attempts encoder
         else attempts)
      ENCODER_PRIORITY attempts in
  let attempts := push attempts libx264 in
  push attempts mpeg4.

(** The retry chain as the specification words it: the preferred encoder,
    then the priority list restricted to [available], then the two
    software encoders; duplicates removed, first occurrence kept. *)
Fixpoint dedupe_from (seen : list EncoderChoice) (xs : list EncoderChoice)
  : list EncoderChoice :=
  match xs with
  | [] => []
  | x :: rest =>
      if includes_encoder seen x then dedupe_from seen rest
      else x :: dedupe_from (seen ++ [x]) rest
  end.

Definition spec_encoder_attempts (available : list EncoderChoice)
  (preferred : EncoderChoice) : list EncoderChoice :=
  dedupe_from []
    (preferred
       :: filter (includes_encoder available) ENCODER_PRIORITY
       ++ [libx264; mpeg4]).

(** ** Filter expressions handed to the transcoder

    The generated text is kept as a tree together with its printer
    [show_expr]; [Paren] is the pair of brackets the templates write
    around an interpolated sub-expression. *)

Inductive Var : Type := var_t | var_iw | var_ih.

Inductive Expr : Type :=
| Lit (d : JS.Decimal)
| Ref (v : Var)
| Paren (e : Expr)
| Mul (a b : Expr)
| Sub (a b : Expr)
| Div (a b : Expr)
| Max (a b : Expr)
| Min (a b : Expr)
| Between (x lo hi : Expr)
| If (c a b : Expr).

Definition show_var (v : Var) : string :=
  match v with
  | var_t => "t"
  | var_iw => "iw"
  | var_ih => "ih"
  end.

Fixpoint show_expr (e : Expr) : string :=
  match e with
  | Lit d => JS.show_decimal d
  | Ref v => show_var v
  | Paren a => "(" ++ show_expr a ++ ")"
  | Mul a b => show_expr a ++ "*" ++ show_expr b
  | Sub a b => show_expr a ++ "-" ++ show_expr b
  | Div a b => show_expr a ++ "/" ++ show_expr b
  | Max a b => "max(" ++ show_expr a ++ "," ++ show_expr b ++ ")"
  | Min a b => "min(" ++ show_expr a ++ "," ++ show_expr b ++ ")"
  | Between x lo hi =>
      "between(" ++ show_expr x ++ "," ++ show_expr lo ++ "," ++ show_expr hi ++ ")"
  | If c a b =>
      "if(" ++ show_expr c ++ "," ++ show_expr a ++ "," ++ show_expr b ++ ")"
  end%string.

(** Per-frame variables of the transcoder's expression evaluator:
    [t] in seconds, [iw]/[ih] the input width and height. *)
Record Env : Type := mkEnv { env_t : Q; env_iw : Q; env_ih : Q }.

Definition lookup (env : Env) (v : Var) : Q :=
  match v with
  | var_t => env_t env
  | var_iw => env_iw env
  | var_ih => env_ih env
  end.

(** The evaluator's meaning of the functions the templates use:
    [between(x,lo,hi)] is 1 when [lo <= x <= hi] and 0 otherwise;
    [if(c,a,b)] is [a] when [c] is non-zero and [b] otherwise. *)
Fixpoint eval (env : Env) (e : Expr) : Q :=
  match e with
  | Lit d => JS.decimal_value d
  | Ref v => lookup env v
  | Paren a => eval env a
  | Mul a b => eval env a * eval env b
  | Sub a b => eval env a - eval env b
  | Div a b => eval env a / eval env b
  | Max a b => Qmax (eval env a) (eval env b)
  | Min a b => Qmin (eval env a) (eval env b)
  | Between x lo hi =>
      if Qle_bool (eval env lo) (eval env x) && Qle_bool (eval env x) (eval env hi)
      then 1 else 0
  | If c a b => if Qeq_bool (eval env c) 0 then eval env b else eval env a
  end.

Definition lit_0 : Expr := Lit (JS.mkDecimal false 0 0).
Definition lit_1 : Expr := Lit (JS.mkDecimal false 1 0).
Definition lit_2 : Expr := Lit (JS.mkDecimal false 2 0).
Definition lit_0_5 : Expr := Lit (JS.mkDecimal false 5 1).

(** ** Render plan compiler ([packages/render-engine]) *)

Definition backgroundColor (background : BackgroundSettings) : string :=
  match bg_type background with
  | bg_color => color background
  | bg_gradient => gradientFrom background
  | _ => "#0f172a"
  end.

Definition escapeExpressionCommas (expression : string) : string :=
  JS.replace_commas expression.

Definition computeFrameMargin (project : ProjectFileV1)
  (exportSettings : ExportSettings) : Z :=
  let background := background (timeline project) in
  let requestedMargin :=
    Z.max 0 (JS.Math_round (padding background) + JS.Math_round (inset background)) in
  let maxAllowedMargin :=
    Z.max 0 (Z.min (JS.floor_half (width exportSettings - 2))
                   (JS.floor_half (height exportSettings - 2))) in
  Z.min requestedMargin maxAllowedMargin.

Definition toSeconds (ms : Q) : JS.Decimal := JS.toFixed (ms / 1000) 3.

Definition toPiecewiseExpression (segments : list ZoomSegment)
  (pickValue : ZoomSegment -> Expr) (fallback : Expr) : Expr :=
  match segments with
  | [] => fallback
  | _ =>
      fold_right
        (fun segment expression =>
           If (Between (Ref var_t)
                       (Lit (toSeconds (startMs segment)))
                       (Lit (toSeconds (endMs segment))))
              (pickValue segment)
              expression)
        fallback segments
  end.

(** [!segment.disabled && segment.level > 1]. *)
Definition isActiveZoom (segment : ZoomSegment) : bool :=
  negb (disabled segment) && negb (Qle_bool (level segment) 1).

Definition pickLevel (segment : ZoomSegment) : Expr :=
  Lit (JS.toFixed (Qmax 1 (level segment)) 4).

Definition pickXNorm (segment : ZoomSegment) : Expr :=
  Lit (JS.toFixed (match manualTarget segment with
                   | Some target => xNorm target
                   | None => 1 # 2
                   end) 4).

Definition pickYNorm (segment : ZoomSegment) : Expr :=
  Lit (JS.toFixed (match manualTarget segment with
                   | Some target => yNorm target
                   | None => 1 # 2
                   end) 4).

Definition zoomExpression (activeZooms : list ZoomSegment) : Expr :=
  toPiecewiseExpression activeZooms pickLevel lit_1.

Definition xNormExpression (activeZooms : list ZoomSegment) : Expr :=
  toPiecewiseExpression activeZooms pickXNorm lit_0_5.

Definition yNormExpression (activeZooms : list ZoomSegment) : Expr :=
  toPiecewiseExpression activeZooms pickYNorm lit_0_5.

(** [max(0,min(iw*(Z)-iw,iw*(X)*(Z)-iw/2))] and its [ih] twin, before
    the commas are escaped. *)
Definition cropExpression (side : Var) (norm zoom : Expr) : Expr :=
  Max lit_0
      (Min (Sub (Mul (Ref side) (Paren zoom)) (Ref side))
           (Sub (Mul (Mul (Ref side) (Paren norm)) (Paren zoom))
                (Div (Ref side) lit_2))).

Definition cropXExpression (activeZooms : list ZoomSegment) : Expr :=
  cropExpression var_iw (xNormExpression activeZooms) (zoomExpression activeZooms).

Definition cropYExpression (activeZooms : list ZoomSegment) : Expr :=
  cropExpression var_ih (yNormExpression activeZooms) (zoomExpression activeZooms).

Definition createForegroundFilter (project : ProjectFileV1)
  (exportSettings : ExportSettings) : string :=
  let margin := computeFrameMargin project exportSettings in
  let innerWidth := Z.max 2 (width exportSettings - margin * 2) in
  let innerHeight := Z.max 2 (height exportSettings - margin * 2) in
  let baseScale :=
    ("scale=" ++ JS.show_Z innerWidth ++ ":" ++ JS.show_Z innerHeight
      ++ ":force_original_aspect_ratio=decrease:flags=lanczos,setsar=1")%string in
  let activeZooms := filter isActiveZoom (zooms (timeline project)) in
  match activeZooms with
  | [] => baseScale
  | _ =>
      let zoomEscaped := escapeExpressionCommas (show_expr (zoomExpression activeZooms)) in
      let cropX := escapeExpressionCommas (show_expr (cropXExpression activeZooms)) in
      let cropY := escapeExpressionCommas (show_expr (cropYExpression activeZooms)) in
      let dynamicZoom :=
        ("scale=iw*(" ++ zoomEscaped ++ "):ih*(" ++ zoomEscaped
          ++ "):eval=frame:flags=lanczos,crop=iw:ih:" ++ cropX ++ ":" ++ cropY)%string in
      (dynamicZoom ++ "," ++ baseScale)%string
  end.

Definition createFilterGraph (project : ProjectFileV1)
  (exportSettings : ExportSettings) : string :=
  let color := JS.replace_hash (backgroundColor (background (timeline project))) in
  let foreground := createForegroundFilter project exportSettings in
  let pad :=
    ("pad=" ++ JS.show_Z (width exportSettings) ++ ":" ++ JS.show_Z (height exportSettings)
      ++ ":(ow-iw)/2:(oh-ih)/2:color=" ++ color)%string in
  (foreground ++ "," ++ pad)%string.

Definition with_zooms (project : ProjectFileV1) (zs : list ZoomSegment)
  : ProjectFileV1 :=
  {| timeline := {| zooms := zs; background := background (timeline project) |};
     export := export project |}.

(** ** View transform calculator ([src/unnamed/part_003]) *)

Record ViewTransform : Type := mkView { scale : Q; xPx : Q; yPx : Q }.

Definition clamp (value min max : Q) : Q := Qmin (Qmax value min) max.

Definition getZoomAtTime (zooms : list ZoomSegment) (atMs : Q)
  : option ZoomSegment :=
  find (fun zoom => negb (disabled zoom)
                    && Qle_bool (startMs zoom) atMs
                    && Qle_bool atMs (endMs zoom))
       zooms.

Definition computeViewTransform (zoom : option ZoomSegment)
  (frameWidth frameHeight : Q) : ViewTransform :=
  match zoom with
  | None => {| scale := 1; xPx := 0; yPx := 0 |}
  | Some zoom =>
      let scale := clamp (level zoom) 1 4 in
      let target := match manualTarget zoom with
                    | Some target => target
                    | None => {| xNorm := 1 # 2; yNorm := 1 # 2 |}
                    end in
      let targetXPx := xNorm target * frameWidth in
      let targetYPx := yNorm target * frameHeight in
      let viewportWidth := frameWidth / scale in
      let viewportHeight := frameHeight / scale in
      let xPx := clamp (targetXPx - viewportWidth / 2) 0 (frameWidth - viewportWidth) in
      let yPx := clamp (targetYPx - viewportHeight / 2) 0 (frameHeight - viewportHeight) in
      {| scale := scale; xPx := xPx; yPx := yPx |}
  end.

(** ** Auto-zoom segmentation ([packages/recording-engine]) *)

Record AutoZoomOptions : Type := mkOptions
  { includeClicks : bool;
    includeTyping : bool;
    includeFocus : bool;
    defaultZoomLevel : Q;
    segmentMs : Q;
    mergeGapMs : Q }.

Definition defaultAutoZoomOptions : AutoZoomOptions :=
  {| includeClicks := true;
     includeTyping := true;
     includeFocus := true;
     defaultZoomLevel := 18 # 10;
     segmentMs := 1500;
     mergeGapMs := 280 |}.

(** [Partial<AutoZoomOptions>]: every field may be absent. *)
Record PartialAutoZoomOptions : Type := mkPartial
  { p_includeClicks : option bool;
    p_includeTyping : option bool;
    p_includeFocus : option bool;
    p_defaultZoomLevel : option Q;
    p_segmentMs : option Q;
    p_mergeGapMs : option Q }.

Definition noOptions : PartialAutoZoomOptions :=
  mkPartial None None None None None None.

Definition or_default {A : Type} (given : option A) (default : A) : A :=
  match given with
  | Some a => a
  | None => default
  end.

(** [{ ...defaultAutoZoomOptions, ...options }]. *)
Definition mergeOptions (options : PartialAutoZoomOptions) : AutoZoomOptions :=
  {| includeClicks := or_default (p_includeClicks options) (includeClicks defaultAutoZoomOptions);
     includeTyping := or_default (p_includeTyping options) (includeTyping defaultAutoZoomOptions);
     includeFocus := or_default (p_includeFocus options) (includeFocus defaultAutoZoomOptions);
     defaultZoomLevel :=
       or_default (p_defaultZoomLevel options) (defaultZoomLevel defaultAutoZoomOptions);
     segmentMs := or_default (p_segmentMs options) (segmentMs defaultAutoZoomOptions);
     mergeGapMs := or_default (p_mergeGapMs options) (mergeGapMs defaultAutoZoomOptions) |}.

Definition shouldUseEvent (event : RecordingEvent) (options : AutoZoomOptions) : bool :=
  match kind event with
  | kind_click => includeClicks options
  | kind_typing => includeTyping options
  | kind_focus => includeFocus options
  | kind_cursor => false
  end.

Definition toSignal (kind : EventKind) : AutoZoomSignal :=
  match kind with
  | kind_click => sig_click
  | kind_typing => sig_typing
  | _ => sig_focus
  end.

(** [[...events].sort((a, b) => a.atMs - b.atMs)]: the sort is stable, so
    an event is placed before the first already-placed one that does not
    compare smaller. *)
Fixpoint insert_by_atMs (event : RecordingEvent) (sorted : list RecordingEvent)
  : list RecordingEvent :=
  match sorted with
  | [] => [event]
  | other :: rest =>
      if Qle_bool (atMs event) (atMs other) then event :: other :: rest
      else other :: insert_by_atMs event rest
  end.

Definition sort_by_atMs (events : list RecordingEvent) : list RecordingEvent :=
  fold_right insert_by_atMs [] events.

(** The body of the [.map] callback; [uuid] is the value drawn from
    [crypto.randomUUID()] for this element. *)
Definition toRawSegment (durationMs : Q) (options : AutoZoomOptions)
  (uuid : string) (event : RecordingEvent) : ZoomSegment :=
  let xNorm := or_default (ev_xNorm event) (1 # 2) in
  let yNorm := or_default (ev_yNorm event) (1 # 2) in
  {| id := uuid;
     startMs := Qmax 0 (atMs event - 120);
     endMs := Qmin durationMs (atMs event + segmentMs options);
     level := defaultZoomLevel options;
     mode := mode_auto;
     manualTarget := Some {| xNorm := xNorm; yNorm := yNorm |};
     instant := false;
     disabled := false;
     sourceSignal := Some (toSignal (kind event)) |}.

(** [.map] over the surviving events, the [n]-th call of
    [crypto.randomUUID()] returning [randomUUID n]. *)
Fixpoint mapRaw (randomUUID : nat -> string) (n : nat) (durationMs : Q)
  (options : AutoZoomOptions) (events : list RecordingEvent) : list ZoomSegment :=
  match events with
  | [] => []
  | event :: rest =>
      toRawSegment durationMs options (randomUUID n) event
        :: mapRaw randomUUID (S n) durationMs options rest
  end.

(** [merged[merged.length - 1]] together with the elements before it. *)
Fixpoint split_last {A : Type} (xs : list A) : option (list A * A) :=
  match xs with
  | [] => None
  | x :: rest =>
      match split_last rest with
      | None => Some ([], x)
      | Some (front, last) => Some (x :: front, last)
      end
  end.

(** One iteration of the merge loop; [merged] is the array built so far,
    and the in-place update of [last] becomes a rebuilt final element. *)
Definition mergeStep (options : AutoZoomOptions) (merged : list ZoomSegment)
  (segment : ZoomSegment) : list ZoomSegment :=
  match split_last merged with
  | None => merged ++ [segment]
  | Some (front, last) =>
      let sameSignal := sourceSignal_eqb (sourceSignal last) (sourceSignal segment) in
      let closeEnough := Qle_bool (startMs segment - endMs last) (mergeGapMs options) in
      if sameSignal && closeEnough then
        front ++
          [ {| id := id last;
               startMs := startMs last;
               endMs := Qmax (endMs last) (endMs segment);
               level := level last;
               mode := mode last;
               manualTarget := match manualTarget segment with
                               | Some target => Some target
                               | None => manualTarget last
                               end;
               instant := instant last;
               disabled := disabled last;
               sourceSignal := sourceSignal last |} ]
      else merged ++ [segment]
  end.

Definition buildAutoZooms (randomUUID : nat -> string)
  (events : list RecordingEvent) (durationMs : Q)
  (options : PartialAutoZoomOptions) : list ZoomSegment :=
  let mergedOptions := mergeOptions options in
  let sorted := sort_by_atMs events in
  let raw :=
    mapRaw randomUUID 0 durationMs mergedOptions
      (filter (fun event => shouldUseEvent event mergedOptions) sorted) in
  if (length raw <? 2)%nat then raw
  else fold_left (mergeStep mergedOptions) raw [].

(** The test and the update of one merge iteration, and the loop as a
    recursion on the segment being extended. *)
Definition mergeable (options : AutoZoomOptions) (last segment : ZoomSegment) : bool :=
  sourceSignal_eqb (sourceSignal last) (sourceSignal segment)
  && Qle_bool (startMs segment - endMs last) (mergeGapMs options).

Definition absorb (last segment : ZoomSegment) : ZoomSegment :=
  {| id := id last;
     startMs := startMs last;
     endMs := Qmax (endMs last) (endMs segment);
     level := level last;
     mode := mode last;
     manualTarget := match manualTarget segment with
                     | Some target => Some target
                     | None => manualTarget last
                     end;
     instant := instant last;
     disabled := disabled last;
     sourceSignal := sourceSignal last |}.

Fixpoint merge_from (options : AutoZoomOptions) (last : ZoomSegment)
  (rest : list ZoomSegment) : list ZoomSegment :=
  match rest with
  | [] => [last]
  | segment :: rest' =>
      if mergeable options last segment
      then merge_from options (absorb last segment) rest'
      else last :: merge_from options segment rest'
  end.

(** Relations used to state the guarantees. *)
Definition sameTime (a b : RecordingEvent) : Prop := atMs a == atMs b.
Definition notLater (a b : RecordingEvent) : Prop := atMs a <= atMs b.
Definition startsNotLater (a b : ZoomSegment) : Prop := startMs a <= startMs b.


(** ** Render plan and executor *)

Record RenderPlan : Type := mkPlan
  { ffmpegPath : string;
    args : list string;
    outputPath : string;
    plan_encoder : EncoderChoice }.

Definition is_space (c : ascii) : bool :=
  let n := nat_of_ascii c in
  ((n =? 32) || ((9 <=? n) && (n <=? 13)))%nat.

Fixpoint trim_start (s : string) : string :=
  match s with
  | EmptyString => EmptyString
  | String c rest => if is_space c then trim_start rest else s
  end.

Fixpoint trim_end (s : string) : string :=
  match s with
  | EmptyString => EmptyString
  | String c rest =>
      match trim_end rest with
      | EmptyString => if is_space c then EmptyString else String c EmptyString
      | kept => String c kept
      end
  end.

(** [String.prototype.trim] on ASCII white space. *)
Definition trim (s : string) : string := trim_end (trim_start s).

Definition createImageBackgroundFilterGraph (project : ProjectFileV1)
  (exportSettings : ExportSettings) : string * string :=
  let foreground := createForegroundFilter project exportSettings in
  let backgroundScale :=
    JS.join ","
      [ ("scale=" ++ JS.show_Z (width exportSettings) ++ ":"
           ++ JS.show_Z (height exportSettings)
           ++ ":force_original_aspect_ratio=increase:flags=lanczos")%string;
        ("crop=" ++ JS.show_Z (width exportSettings) ++ ":"
           ++ JS.show_Z (height exportSettings))%string;
        "setsar=1"%string ] in
  (("[0:v]" ++ foreground ++ "[fg];[1:v]" ++ backgroundScale
     ++ "[bg];[bg][fg]overlay=(W-w)/2:(H-h)/2:shortest=1[vout]")%string,
   "[vout]"%string).

(** [optionsBackgroundImagePath] is [options?.backgroundImagePath]. *)
Definition createRenderPlan (project : ProjectFileV1)
  (inputPath outputPath ffmpegPath : string) (encoder : EncoderChoice)
  (optionsBackgroundImagePath : option string) : RenderPlan :=
  let backgroundImagePath := option_map trim optionsBackgroundImagePath in
  let args := ["-y"; "-i"; inputPath]%string in
  let args :=
    match bg_type (background (timeline project)), backgroundImagePath with
    | bg_image, Some (String c rest as path) =>
        let '(graph, outputLabel) :=
          createImageBackgroundFilterGraph project (export project) in
        args ++ ["-loop"; "1"; "-i"; path; "-filter_complex"; graph;
                 "-map"; outputLabel; "-shortest"]%string
    | _, _ =>
        let filterGraph := createFilterGraph project (export project) in
        args ++ ["-vf"; filterGraph]%string
    end in
  let args :=
    args ++ ["-r"; JS.show_Z (fps (export project)); "-c:v"; encoderName encoder;
             "-pix_fmt"; "yuv420p"; "-movflags"; "+faststart"; outputPath]%string in
  {| ffmpegPath := ffmpegPath; args := args; outputPath := outputPath;
     plan_encoder := encoder |}.

(** What is on disk at a path. *)
Inductive FsEntry : Type :=
| File (content : string)
| Directory.

Definition FileSystem : Type := string -> option FsEntry.

Definition existsSync (fs : FileSystem) (path : string) : bool :=
  match fs path with
  | Some _ => true
  | None => false
  end.

(** [unlinkSync] removes a file; on anything else it throws ([None]). *)
Definition unlinkSync (fs : FileSystem) (path : string) : option FileSystem :=
  match fs path with
  | Some (File _) => Some (fun other => if String.eqb other path then None else fs other)
  | _ => None
  end.

(** How a spawned transcoder ends, as the two listeners of [runRender]
    see it: an ['error'] event carrying an [Error], or ['close'] with the
    exit code ([None] is [null]) after the given non-empty stderr lines. *)
Inductive ProcessEnd : Type :=
| proc_error (message : string)
| proc_close (code : option Z) (stderrLines : list string).

Inductive Settled : Type :=
| Resolved
| Rejected (message : string).

(** [stderrTail.push(line); if (stderrTail.length > 30) stderrTail.shift()]. *)
Definition pushTail (stderrTail : list string) (line : string) : list string :=
  let pushed := stderrTail ++ [line] in
  if (30 <? length pushed)%nat then tl pushed else pushed.

Definition newline : string := String (ascii_of_nat 10) EmptyString.

Definition show_code (code : option Z) : string :=
  match code with
  | Some n => JS.show_Z n
  | None => "null"
  end.

(** The promise of [runRender], from the way the process ended. *)
Definition settle (ending : ProcessEnd) : Settled :=
  match ending with
  | proc_error message => Rejected message
  | proc_close code stderrLines =>
      match code with
      | Some 0%Z => Resolved
      | _ =>
          let stderrTail := fold_left pushTail stderrLines [] in
          let details :=
            match stderrTail with
            | [] => EmptyString
            | _ => (newline ++ JS.join newline stderrTail)%string
            end in
          Rejected ("FFmpeg exited with code " ++ show_code code ++ "." ++ details)%string
      end
  end.

(** One executed iteration of the retry loop, recorded for the proofs:
    the encoder, the file system the process was spawned on, how the
    process ended and the file system it left. *)
Record Attempt : Type := mkAttempt
  { attempt_encoder : EncoderChoice;
    spawn_fs : FileSystem;
    attempt_end : ProcessEnd;
    left_fs : FileSystem }.

Inductive LoopExit : Type :=
| LoopReturned (encoder : EncoderChoice)
| LoopThrew
| LoopFinished (lastError : option string).

Inductive ExportOutcome : Type :=
| Exported (outputPath : string) (encoder : EncoderChoice)
| ExportError (message : string)
| UnlinkError.

Section RenderService.

(** The external transcoder: started on a plan and a file system, it
    ends in some way and leaves a file system. *)
Variable spawn : RenderPlan -> FileSystem -> ProcessEnd * FileSystem.

Variable project : ProjectFileV1.
Variable screenTrackPath : string.
Variable ffmpegPath_ : string.
Variable resolvedOutput : string.
Variable backgroundImagePath : option string.

Definition runRender (plan : RenderPlan) (fs : FileSystem)
  : Settled * ProcessEnd * FileSystem :=
  let '(ending, fs') := spawn plan fs in
  (settle ending, ending, fs').

(** The error caught by the [try] of one iteration, if any. *)
Definition caughtError (settled : Settled) (fs : FileSystem) : option string :=
  match settled with
  | Resolved =>
      if existsSync fs resolvedOutput then None
      else Some "Render completed but output was not created."%string
  | Rejected message => Some message
  end.

(** [for (const encoder of encoderAttempts) { ... }]. *)
Fixpoint attemptLoop (remaining : list EncoderChoice) (lastError : option string)
  (fs : FileSystem) : LoopExit * list Attempt * FileSystem :=
  match remaining with
  | [] => (LoopFinished lastError, [], fs)
  | encoder :: rest =>
      match (if existsSync fs resolvedOutput then unlinkSync fs resolvedOutput
             else Some fs) with
      | None => (LoopThrew, [], fs)
      | Some cleared =>
          let plan :=
            createRenderPlan project screenTrackPath resolvedOutput ffmpegPath_
                             encoder backgroundImagePath in
          let '(settled, ending, after) := runRender plan cleared in
          let attempt := mkAttempt encoder cleared ending after in
          match caughtError settled after with
          | None => (LoopReturned encoder, [attempt], after)
          | Some error =>
              let '(exit, attempts, final) := attemptLoop rest (Some error) after in
              (exit, attempt :: attempts, final)
          end
      end
  end.

(** [lastError instanceof Error ? lastError.message : String(lastError)]. *)
Definition lastErrorText (lastError : option string) : string :=
  match lastError with
  | Some message => message
  | None => "undefined"
  end.

(** Lines 243-282 of [renderProjectToMp4]: the loop and the final throw. *)
Definition renderAttempts (encoderAttempts : list EncoderChoice) (fs : FileSystem)
  : ExportOutcome * list Attempt * FileSystem :=
  let '(exit, attempts, final) := attemptLoop encoderAttempts None fs in
  (match exit with
   | LoopReturned encoder => Exported resolvedOutput encoder
   | LoopThrew => UnlinkError
   | LoopFinished lastError =>
       ExportError
         ("Failed to export MP4 after trying encoders: "
            ++ JS.join ", " (map encoderName encoderAttempts) ++ ". "
            ++ lastErrorText lastError)%string
   end, attempts, final).

(** An attempt, as recorded, succeeded: exit code 0 and the output
    file on disk afterwards. *)
Definition attemptSucceeded (a : Attempt) : Prop :=
  (exists stderrLines, attempt_end a = proc_close (Some 0%Z) stderrLines)
  /\ existsSync (left_fs a) resolvedOutput = true.

(** The error an attempt that did not succeed is recorded with. *)
Definition attemptError (a : Attempt) : option string :=
  caughtError (settle (attempt_end a)) (left_fs a).

(** A recorded attempt is what the loop does: the process is spawned on
    the plan for the attempt's encoder, on a file system without the
    output path. *)
Definition spawnedCleanly (a : Attempt) : Prop :=
  existsSync (spawn_fs a) resolvedOutput = false
  /\ spawn (createRenderPlan project screenTrackPath resolvedOutput ffmpegPath_
                             (attempt_encoder a) backgroundImagePath)
           (spawn_fs a)
     = (attempt_end a, left_fs a).

(** The value of [lastError] after the recorded attempts. *)
Definition lastErrorAfter (attempts : list Attempt) (lastError : option string)
  : option string :=
  fold_left (fun _ a => attemptError a) attempts lastError.

End RenderService.

(** The encoder a hint names, if it names one. *)
Definition hintedEncoder (hint : EncoderHint) : option EncoderChoice :=
  match hint with
  | hint_auto => None
  | hint_nvenc => Some h264_nvenc
  | hint_qsv => Some h264_qsv
  | hint_amf => Some h264_amf
  | hint_mpeg4 => Some mpeg4
  end.

(** The fall-through of [pickEncoder] once the hint is out of the way. *)
Definition fallThrough (available : list string) : EncoderChoice :=
  if JS.includes available "h264_nvenc" then h264_nvenc
  else if JS.includes available "h264_qsv" then h264_qsv
  else if JS.includes available "h264_amf" then h264_amf
  else if JS.includes available "libx264" then libx264
  else mpeg4.

(** ** Vocabulary of the properties *)

(** The value [toSeconds] prints, back in milliseconds: the nearest whole
    millisecond, a tie going away from zero. *)
Definition roundToMs (ms : Q) : Q :=
  let n := inject_Z (Qfloor (Qabs ms + (1 # 2))) in
  if Qle_bool 0 ms then n else - n.

(** The frame time [env_t env] (seconds) lies in the segment's interval
    as the expression prints it. *)
Definition inWindow (segment : ZoomSegment) (env : Env) : Prop :=
  roundToMs (startMs segment) <= env_t env * 1000
  /\ env_t env * 1000 <= roundToMs (endMs segment).


(** [segment] is the lowest-index element of [segments] whose window
    contains the frame time. *)
Definition firstInWindow (segments : list ZoomSegment) (env : Env)
  (segment : ZoomSegment) : Prop :=
  exists i : nat,
    nth_error segments i = Some segment
    /\ inWindow segment env
    /\ forall (j : nat) (earlier : ZoomSegment),
         (j < i)%nat -> nth_error segments j = Some earlier -> ~ inWindow earlier env.

(** The [between(t,start,end)] test the fold writes for a segment. *)
Definition window (segment : ZoomSegment) : Expr :=
  Between (Ref var_t) (Lit (toSeconds (startMs segment))) (Lit (toSeconds (endMs segment))).

(** The number [x.toFixed(4)] denotes. *)
Definition round4 (x : Q) : Q := JS.decimal_value (JS.toFixed x 4).




Definition front_segment : ZoomSegment :=
  mkZoom "a" 0 1000 2 mode_manual (Some (mkTarget (1 # 4) (3 # 4))) false false None.

Definition back_segment : ZoomSegment :=
  mkZoom "b" 500 1500 3 mode_manual None false false None.

Definition mid_env : Env := mkEnv (3 # 4) 1920 1080.



Definition sampleUUID (n : nat) : string :=
  ("uuid-" ++ JS.show_Z (Z.of_nat n))%string.

Definition clickAt (name : string) (at_ : Q) : RecordingEvent :=
  mkEvent name kind_click at_ None None.

Definition typingAt (name : string) (at_ : Q) : RecordingEvent :=
  mkEvent name kind_typing at_ None None.

Definition sampleBackground : BackgroundSettings :=
  mkBackground bg_gradient "#0f172a" "#111827" 64 0.

Definition sampleExport : ExportSettings := mkExport 1920 1080 60 hint_auto.

Definition flat_segment : ZoomSegment :=
  mkZoom "flat" 0 1000 1 mode_manual None false false None.

Definition sampleProject : ProjectFileV1 :=
  mkProject (mkTimeline [flat_segment] sampleBackground) sampleExport.


Definition staleDisk : FileSystem :=
  fun path => if String.eqb path "out.mp4" then Some (File "stale") else None.

(** A transcoder that always exits with code 1 and writes nothing. *)
Definition failingSpawn (plan : RenderPlan) (fs : FileSystem)
  : ProcessEnd * FileSystem :=
  (proc_close (Some 1%Z) ["Unknown encoder"%string], fs).


(* ================================================================= *)
(** * Part I, continued: the rest of the cited files *)
(* ================================================================= *)

(** ** Encoder probing and the attempt chain ([src/unnamed/part_001]) *)

(** [String.prototype.includes]. *)
Fixpoint string_includes (hay needle : string) : bool :=
  if String.prefix needle hay then true
  else match hay with
       | EmptyString => false
       | String _ rest => string_includes rest needle
       end.

(** How the probing process ([ffmpeg -hide_banner -encoders]) ends: an
    ['error'] event, or ['close'] after the given stdout chunks. *)
Inductive ProbeEnd : Type :=
| probe_error
| probe_close (chunks : list string).

(** [stdout += String(chunk)] over the chunks received. *)
Definition collectStdout (chunks : list string) : string :=
  fold_left (fun stdout chunk => (stdout ++ chunk)%string) chunks EmptyString.

Definition getAvailableEncoders (ending : ProbeEnd) : list EncoderChoice :=
  match ending with
  | probe_error => [libx264; mpeg4]
  | probe_close chunks =>
      let stdout := collectStdout chunks in
      let encoders :=
        filter (fun name => string_includes stdout (encoderName name)) ENCODER_PRIORITY in
      match encoders with
      | [] => [libx264; mpeg4]
      | _ => encoders
      end
  end.

(** Lines 203-205 of [renderProjectToMp4]: from the probe and the hint to
    the chain of encoders to try. *)
Definition encoderAttemptsFor (ending : ProbeEnd) (hint : EncoderHint)
  : list EncoderChoice :=
  let encoders := getAvailableEncoders ending in
  let preferredEncoder := pickEncoder (map encoderName encoders) hint in
  buildEncoderAttempts encoders preferredEncoder.

Definition isHardware (e : EncoderChoice) : bool :=
  match e with
  | h264_nvenc | h264_qsv | h264_amf => true
  | libx264 | mpeg4 => false
  end.

(** ** File stem of the suggested output ([src/unnamed/part_001]) *)

(** The characters outside the class [[^a-z0-9-_. ]] with flag [i]. *)
Definition isStemChar (c : ascii) : bool :=
  let n := nat_of_ascii c in
  (((97 <=? n) && (n <=? 122)) || ((65 <=? n) && (n <=? 90))
   || ((48 <=? n) && (n <=? 57))
   || (n =? 45) || (n =? 95) || (n =? 46) || (n =? 32))%nat.

(** [value.replace(/[^a-z0-9-_. ]/gi, "_")]. *)
Fixpoint replaceOutsideStem (value : string) : string :=
  match value with
  | EmptyString => EmptyString
  | String c rest =>
      String (if isStemChar c then c else "_"%char) (replaceOutsideStem rest)
  end.

Definition sanitizeFileStem (value : string) : string :=
  match trim (replaceOutsideStem value) with
  | EmptyString => "revamp-export"
  | stem => stem
  end.

Fixpoint string_forall (p : ascii -> bool) (s : string) : bool :=
  match s with
  | EmptyString => true
  | String c rest => p c && string_forall p rest
  end.

(** ** The retry loop, continued *)

(** The file system after the recorded attempts, starting from [fs]. *)
Definition diskAfter (attempts : list Attempt) (fs : FileSystem) : FileSystem :=
  fold_left (fun _ a => left_fs a) attempts fs.

(** A transcoder that fails with the first encoder tried for a plan and
    writes the output file with any other. *)
Definition pickySpawn (plan : RenderPlan) (fs : FileSystem)
  : ProcessEnd * FileSystem :=
  match plan_encoder plan with
  | h264_nvenc => (proc_close (Some 1%Z) ["No NVENC capable devices found"%string], fs)
  | _ =>
      (proc_close (Some 0%Z) [],
       fun path => if String.eqb path (outputPath plan) then Some (File "video") else fs path)
  end.

(** ** The editor engine, continued ([src/unnamed/part_003]) *)

(** An object [{ startMs, endMs }]. *)
Record MsRange : Type := mkRange { range_startMs : Q; range_endMs : Q }.

Definition normalizeRange (startMs endMs : Q) : MsRange :=
  if Qle_bool startMs endMs
  then {| range_startMs := startMs; range_endMs := endMs |}
  else {| range_startMs := endMs; range_endMs := startMs |}.

(** [[...segments].sort((a, b) => a.startMs - b.startMs)] for any element
    type with a [startMs]; the sort is stable. *)
Fixpoint insert_by_start {T : Type} (startOf : T -> Q) (segment : T) (sorted : list T)
  : list T :=
  match sorted with
  | [] => [segment]
  | other :: rest =>
      if Qle_bool (startOf segment) (startOf other) then segment :: other :: rest
      else other :: insert_by_start startOf segment rest
  end.

Definition sortByStart {T : Type} (startOf : T -> Q) (segments : list T) : list T :=
  fold_right (insert_by_start startOf) [] segments.

(** [createInstantZoom(startMs, level, xNorm = 0.5, yNorm = 0.5)]; [uuid]
    is the value drawn from [crypto.randomUUID()]. *)
Definition createInstantZoom (uuid : string) (startMs level : Q)
  (xNorm yNorm : option Q) : ZoomSegment :=
  let xNorm := or_default xNorm (1 # 2) in
  let yNorm := or_default yNorm (1 # 2) in
  {| id := uuid;
     startMs := startMs;
     endMs := startMs + 800;
     level := clamp level 1 4;
     mode := mode_manual;
     manualTarget := Some {| xNorm := clamp xNorm 0 1; yNorm := clamp yNorm 0 1 |};
     instant := true;
     disabled := false;
     sourceSignal := Some sig_click |}.

(** [computeSnappedTime(px, pixelsPerSecond, snapMs = 100)]. *)
Definition computeSnappedTime (px pixelsPerSecond : Q) (snapMs : option Q) : Q :=
  let snapMs := or_default snapMs 100 in
  let rawMs := (px / pixelsPerSecond) * 1000 in
  inject_Z (JS.Math_round (rawMs / snapMs)) * snapMs.

Definition cropDurationByCuts (durationMs : Q) (cuts : list MsRange) : Q :=
  let removedMs :=
    fold_left (fun acc cut => acc + Qmax 0 (range_endMs cut - range_startMs cut)) cuts 0 in
  Qmax 1 (durationMs - removedMs).

(** The target point of a segment, as [computeViewTransform] reads it. *)
Definition targetOf (zoom : ZoomSegment) : Target :=
  match manualTarget zoom with
  | Some target => target
  | None => {| xNorm := 1 # 2; yNorm := 1 # 2 |}
  end.

(** The test [getZoomAtTime] applies to a segment. *)
Definition coversTime (atMs : Q) (zoom : ZoomSegment) : bool :=
  negb (disabled zoom) && Qle_bool (startMs zoom) atMs && Qle_bool atMs (endMs zoom).

Definition wholeMs (zoom : ZoomSegment) : Prop :=
  roundToMs (startMs zoom) == startMs zoom /\ roundToMs (endMs zoom) == endMs zoom.

Definition startsNoLater {T : Type} (startOf : T -> Q) (a b : T) : Prop :=
  startOf a <= startOf b.

(** ** The recording engine, continued ([src/packages/recording-engine]) *)

Record CursorPathPoint : Type := mkPoint { tMs : Q; pt_xNorm : Q; pt_yNorm : Q }.

(** The loop of [smoothCursorPath] from index 1 on, then the push of the
    last point: [prev] is [result[result.length - 1]], [rest] the points
    not yet visited. *)
Fixpoint smoothRest (smoothing : Q) (prev : CursorPathPoint)
  (rest : list CursorPathPoint) : list CursorPathPoint :=
  match rest with
  | [] => []
  | curr :: later =>
      match later with
      | [] => [curr]
      | _ =>
          let smoothed :=
            {| tMs := tMs curr;
               pt_xNorm := pt_xNorm prev + (pt_xNorm curr - pt_xNorm prev) * (1 - smoothing);
               pt_yNorm := pt_yNorm prev + (pt_yNorm curr - pt_yNorm prev) * (1 - smoothing) |} in
          smoothed :: smoothRest smoothing smoothed later
      end
  end.

(** [smoothCursorPath(points, smoothing = 0.22)]. *)
Definition smoothCursorPath (points : list CursorPathPoint) (smoothing : option Q)
  : list CursorPathPoint :=
  let smoothing := or_default smoothing (22 # 100) in
  if (length points <? 3)%nat then points
  else match points with
       | [] => []
       | first :: rest => first :: smoothRest smoothing first rest
       end.

(** [dx >= threshold || dy >= threshold]. *)
Definition movedEnough (threshold : Q) (prev curr : CursorPathPoint) : bool :=
  Qle_bool threshold (Qabs (pt_xNorm curr - pt_xNorm prev))
  || Qle_bool threshold (Qabs (pt_yNorm curr - pt_yNorm prev)).

(** The loop of [removeCursorShakes]: [prev] is [output[output.length - 1]]. *)
Fixpoint keepMoves (threshold : Q) (prev : CursorPathPoint)
  (rest : list CursorPathPoint) : list CursorPathPoint :=
  match rest with
  | [] => []
  | curr :: later =>
      if movedEnough threshold prev curr then curr :: keepMoves threshold curr later
      else keepMoves threshold prev later
  end.

(** [removeCursorShakes(points, threshold = 0.002)]. *)
Definition removeCursorShakes (points : list CursorPathPoint) (threshold : option Q)
  : list CursorPathPoint :=
  let threshold := or_default threshold (2 # 1000) in
  if (length points <? 2)%nat then points
  else match points with
       | [] => []
       | first :: rest => first :: keepMoves threshold first rest
       end.

(** [short] is [long] with some elements left out. *)
Inductive Subsequence {A : Type} : list A -> list A -> Prop :=
| sub_nil : Subsequence [] []
| sub_keep (x : A) (short long : list A) :
    Subsequence short long -> Subsequence (x :: short) (x :: long)
| sub_drop (x : A) (short long : list A) :
    Subsequence short long -> Subsequence short (x :: long).


(** What every segment made by [buildAutoZooms] carries. *)
Definition autoZoomShape (options : AutoZoomOptions) (s : ZoomSegment) : Prop :=
  level s = defaultZoomLevel options
  /\ mode s = mode_auto
  /\ instant s = false
  /\ disabled s = false
  /\ exists target, manualTarget s = Some target.

(** Segment [s] spans segment [r] and has its signal. *)
Definition spans (s r : ZoomSegment) : Prop :=
  sourceSignal s = sourceSignal r
  /\ startMs s <= startMs r
  /\ endMs r <= endMs s.

Definition samplePath : list CursorPathPoint :=
  [mkPoint 0 0 0; mkPoint 10 1 (1 # 2); mkPoint 20 (1 # 2) 1; mkPoint 30 1 1].

(** ** The stderr listener of [runRender] ([src/packages/render-engine]) *)

Definition isLineFeed (c : ascii) : bool := (nat_of_ascii c =? 10)%nat.
Definition isCarriageReturn (c : ascii) : bool := (nat_of_ascii c =? 13)%nat.

Definition startsWithLineFeed (s : string) : bool :=
  match s with
  | EmptyString => false
  | String c _ => isLineFeed c
  end.

(** [s.split(/\r?\n/)]: a line feed ends a piece, and a carriage return
    directly before a line feed belongs to the separator. *)
Fixpoint splitLines (s : string) : list string :=
  match s with
  | EmptyString => [EmptyString]
  | String c rest =>
      if isLineFeed c then EmptyString :: splitLines rest
      else if isCarriageReturn c && startsWithLineFeed rest then splitLines rest
      else match splitLines rest with
           | [] => [String c EmptyString]
           | piece :: pieces => String c piece :: pieces
           end
  end.

Definition nonEmpty (s : string) : bool :=
  match s with
  | EmptyString => false
  | String _ _ => true
  end.

(** [String(buffer).split(/\r?\n/).filter(Boolean)]. *)
Definition chunkLines (chunk : string) : list string :=
  filter nonEmpty (splitLines chunk).

(** [\d]. *)
Definition isDigit (c : ascii) : bool :=
  let n := nat_of_ascii c in ((48 <=? n) && (n <=? 57))%nat.

(** The longest run of digits at the start of [s], and what follows. *)
Fixpoint takeDigits (s : string) : string * string :=
  match s with
  | EmptyString => (EmptyString, EmptyString)
  | String c rest =>
      if isDigit c
      then let '(digits, after) := takeDigits rest in (String c digits, after)
      else (EmptyString, s)
  end.

Definition expectChar (c : ascii) (s : string) : option string :=
  match s with
  | EmptyString => None
  | String x rest => if Ascii.eqb x c then Some rest else None
  end.

Fixpoint expectText (text s : string) : option string :=
  match text with
  | EmptyString => Some s
  | String c text' =>
      match expectChar c s with
      | Some rest => expectText text' rest
      | None => None
      end
  end.

(** [\d+] followed by the character [c]: the run is greedy, and a shorter
    run would be followed by a digit, so there is nothing to backtrack
    to. *)
Definition digitsThen (c : ascii) (s : string) : option (string * string) :=
  let '(digits, after) := takeDigits s in
  match digits with
  | EmptyString => None
  | _ =>
      match expectChar c after with
      | Some rest => Some (digits, rest)
      | None => None
      end
  end.

(** A match of [time=(\d+):(\d+):(\d+\.\d+)] that starts at the first
    character of [s]: the three groups. *)
Definition matchTimeAt (s : string) : option (string * string * string) :=
  match expectText "time=" s with
  | None => None
  | Some s1 =>
      match digitsThen ":" s1 with
      | None => None
      | Some (hours, s2) =>
          match digitsThen ":" s2 with
          | None => None
          | Some (minutes, s3) =>
              match digitsThen "." s3 with
              | None => None
              | Some (whole, s4) =>
                  match takeDigits s4 with
                  | (EmptyString, _) => None
                  | (fraction, _) => Some (hours, minutes, (whole ++ "." ++ fraction)%string)
                  end
              end
          end
      end
  end.

(** [regex.exec(line)]: the match at the leftmost position that has one. *)
Fixpoint execTime (line : string) : option (string * string * string) :=
  match matchTimeAt line with
  | Some groups => Some groups
  | None =>
      match line with
      | EmptyString => None
      | String _ rest => execTime rest
      end
  end.

Definition digitValue (c : ascii) : Z := Z.of_nat (nat_of_ascii c) - 48.

(** [Number(digits)] for a string of digits. *)
Definition digitsNumber (digits : string) : Z :=
  (fix go (acc : Z) (s : string) : Z :=
     match s with
     | EmptyString => acc
     | String c rest => go (acc * 10 + digitValue c)%Z rest
     end) 0%Z digits.

(** [Number(text)] for digits, optionally followed by a point and digits. *)
Definition decimalNumber (text : string) : Q :=
  let '(whole, after) := takeDigits text in
  match expectChar "." after with
  | None => inject_Z (digitsNumber whole)
  | Some fraction =>
      inject_Z (digitsNumber whole)
      + inject_Z (digitsNumber fraction) / inject_Z (JS.pow10 (String.length fraction))
  end.

Record RenderProgress : Type := mkProgress { ratio : Q; rawLine : string }.

(** The progress a line reports, if it matches. *)
Definition progressOf (line : string) : option RenderProgress :=
  match execTime line with
  | None => None
  | Some (h, m, s) =>
      let hours := decimalNumber h in
      let minutes := decimalNumber m in
      let seconds := decimalNumber s in
      let totalSeconds := hours * 3600 + minutes * 60 + seconds in
      Some {| ratio := Qmax 0 (Qmin (totalSeconds / 3600) 1); rawLine := line |}
  end.

(** The listener's state: the diagnostic buffer, and the calls of
    [onProgress] made so far. *)
Record ListenerState : Type := mkListener
  { stderrTail : list string; reported : list RenderProgress }.

(** The body of the [for] loop, for one line. *)
Definition onLine (state : ListenerState) (line : string) : ListenerState :=
  {| stderrTail := pushTail (stderrTail state) line;
     reported := match progressOf line with
                 | Some progress => reported state ++ [progress]
                 | None => reported state
                 end |}.

(** The ['data'] listener. *)
Definition onData (state : ListenerState) (buffer : string) : ListenerState :=
  fold_left onLine (chunkLines buffer) state.

Definition hasNoLineFeed (s : string) : bool :=
  string_forall (fun c => negb (isLineFeed c)) s.

Fixpoint lastChar (s : string) : option ascii :=
  match s with
  | EmptyString => None
  | String c rest =>
      match rest with
      | EmptyString => Some c
      | _ => lastChar rest
      end
  end.

Definition endsWithCarriageReturn (s : string) : bool :=
  match lastChar s with
  | Some c => isCarriageReturn c
  | None => false
  end.

(** A line as a transcoder writes it: not empty, no line feed inside, no
    carriage return at the end. *)
Definition plainLine (line : string) : Prop :=
  nonEmpty line = true
  /\ hasNoLineFeed line = true
  /\ endsWithCarriageReturn line = false.

(** The progress records of the lines that match, in order. *)
Definition progressReports (lines : list string) : list RenderProgress :=
  flat_map (fun line => match progressOf line with
                        | Some progress => [progress]
                        | None => []
                        end) lines.

Definition idleListener : ListenerState := mkListener [] [].

Definition allDigits (s : string) : Prop :=
  nonEmpty s = true /\ string_forall isDigit s = true.

Definition startsWithDigit (s : string) : bool :=
  match s with
  | EmptyString => false
  | String c _ => isDigit c
  end.

Definition isLetterT (c : ascii) : bool := Ascii.eqb c "t".

(** ** Dragging a segment edge ([StudioPage.tsx], [moveZoomBoundary]) *)

Inductive Edge : Type := edge_start | edge_end.

(** The callback mapped over [draft.timeline.zooms]; [durationMs] is
    [project.meta.durationMs]. *)
Definition moveBoundaryOf (durationMs : Q) (id_ : string) (edge : Edge) (nextMs : Q)
  (zoom : ZoomSegment) : ZoomSegment :=
  if negb (String.eqb (id zoom) id_) then zoom
  else match edge with
       | edge_start =>
           {| id := id zoom;
              startMs := Qmax 0 (Qmin nextMs (endMs zoom - 100));
              endMs := endMs zoom;
              level := level zoom;
              mode := mode zoom;
              manualTarget := manualTarget zoom;
              instant := instant zoom;
              disabled := disabled zoom;
              sourceSignal := sourceSignal zoom |}
       | edge_end =>
           {| id := id zoom;
              startMs := startMs zoom;
              endMs := Qmin durationMs (Qmax nextMs (startMs zoom + 100));
              level := level zoom;
              mode := mode zoom;
              manualTarget := manualTarget zoom;
              instant := instant zoom;
              disabled := disabled zoom;
              sourceSignal := sourceSignal zoom |}
       end.

Definition moveZoomBoundary (durationMs : Q) (zooms : list ZoomSegment)
  (id_ : string) (edge : Edge) (nextMs : Q) : list ZoomSegment :=
  map (moveBoundaryOf durationMs id_ edge nextMs) zooms.

(** More sample data for the concrete checks. *)
Definition sampleProbe : ProbeEnd :=
  probe_close [" V....D h264_nvenc           NVIDIA NVENC H.264 encoder";
               " V....D libx264              libx264 H.264";
               " V.S.BD mpeg4                MPEG-4 part 2"]%string.

Definition sampleChunks : list string :=
  [("frame= 30 fps=30 time=00:00:01.00 bitrate=900k" ++ newline)%string;
   ("video:512kB audio:0kB" ++ newline)%string].

Definition sampleProgress : RenderProgress :=
  match progressOf "frame= 30 fps=30 time=00:00:01.00 bitrate=900k" with
  | Some progress => progress
  | None => mkProgress 0 EmptyString
  end.

(* ================================================================= *)
(** * Part II: properties *)
(* ================================================================= *)

(** ** Encoder negotiation *)

Lemma encoder_eqb_eq (a b : EncoderChoice) : encoder_eqb a b = true <-> a = b.
Proof. destruct a, b; simpl; split; intro H; try reflexivity; discriminate. Qed.

Lemma includes_encoder_In (xs : list EncoderChoice) (x : EncoderChoice) :
  includes_encoder xs x = true <-> In x xs.
Proof.
  unfold includes_encoder. rewrite existsb_exists. split.
  - intros [y [Hy Heq]]. apply encoder_eqb_eq in Heq. now subst.
  - intros Hin. exists x. split; [assumption | now apply encoder_eqb_eq].
Qed.

Lemma includes_encoder_not_In (xs : list EncoderChoice) (x : EncoderChoice) :
  includes_encoder xs x = false <-> ~ In x xs.
Proof.
  rewrite <- includes_encoder_In. destruct (includes_encoder xs x); split; intro H;
    try reflexivity; try discriminate; try (intro; discriminate).
  exfalso. now apply H.
Qed.

(** Pushing a whole list is appending its not-yet-seen elements. *)
Lemma fold_push_dedupe (xs attempts : list EncoderChoice) :
  fold_left push xs attempts = attempts ++ dedupe_from attempts xs.
Proof.
  revert attempts. induction xs as [| x rest IH]; intros attempts; simpl.
  - now rewrite app_nil_r.
  - rewrite IH. unfold push. destruct (includes_encoder attempts x).
    + reflexivity.
    + now rewrite <- app_assoc.
Qed.

Lemma fold_guarded_push (keep : EncoderChoice -> bool) (xs attempts : list EncoderChoice) :
  fold_left (fun attempts encoder => if keep encoder then push attempts encoder else attempts)
            xs attempts
  = fold_left push (filter keep xs) attempts.
Proof.
  revert attempts. induction xs as [| x rest IH]; intros attempts; simpl.
  - reflexivity.
  - destruct (keep x); simpl; apply IH.
Qed.

Lemma buildEncoderAttempts_as_fold (available : list EncoderChoice) (preferred : EncoderChoice) :
  buildEncoderAttempts available preferred
  = fold_left push
      (preferred :: filter (includes_encoder available) ENCODER_PRIORITY ++ [libx264; mpeg4])
      [].
Proof.
  unfold buildEncoderAttempts. rewrite fold_guarded_push.
  simpl fold_left at 2. rewrite fold_left_app. reflexivity.
Qed.

Lemma dedupe_from_fresh (xs seen : list EncoderChoice) :
  NoDup seen -> NoDup (seen ++ dedupe_from seen xs).
Proof.
  revert seen. induction xs as [| x rest IH]; intros seen Hseen; simpl.
  - now rewrite app_nil_r.
  - destruct (includes_encoder seen x) eqn:Hx.
    + now apply IH.
    + replace (seen ++ x :: dedupe_from (seen ++ [x]) rest)
        with ((seen ++ [x]) ++ dedupe_from (seen ++ [x]) rest)
        by now rewrite <- app_assoc.
      apply IH. apply NoDup_app; [assumption | repeat constructor; simpl; tauto |].
      intros y Hy [Heq | []]. subst y.
      apply includes_encoder_not_In in Hx. contradiction.
Qed.

(** C5: [buildEncoderAttempts] is the chain "preferred, then the
    available entries of the priority list, then libx264 and mpeg4" with
    later duplicates dropped; it starts with the preferred encoder, has no
    repetition, is never empty, and on [["h264_qsv"]] with preferred
    [h264_nvenc] it is [h264_nvenc, h264_qsv, libx264, mpeg4]. *)
Theorem buildEncoderAttempts_chain :
  forall (available : list EncoderChoice) (preferred : EncoderChoice),
    buildEncoderAttempts available preferred = spec_encoder_attempts available preferred
    /\ hd_error (buildEncoderAttempts available preferred) = Some preferred
    /\ NoDup (buildEncoderAttempts available preferred)
    /\ buildEncoderAttempts available preferred <> []
    /\ buildEncoderAttempts [h264_qsv] h264_nvenc = [h264_nvenc; h264_qsv; libx264; mpeg4].
Proof.
  intros available preferred.
  assert (Hspec : buildEncoderAttempts available preferred
                  = spec_encoder_attempts available preferred).
  { rewrite buildEncoderAttempts_as_fold, fold_push_dedupe. reflexivity. }
  assert (Hhd : hd_error (buildEncoderAttempts available preferred) = Some preferred).
  { rewrite Hspec. reflexivity. }
  repeat split.
  - exact Hspec.
  - exact Hhd.
  - rewrite Hspec. unfold spec_encoder_attempts.
    match goal with |- NoDup (dedupe_from [] ?xs) => exact (dedupe_from_fresh xs [] (NoDup_nil EncoderChoice)) end.
  - intro Hnil. rewrite Hnil in Hhd. discriminate.
Qed.

(** C6, as the claim states it, fails: with [h264_nvenc] available the
    priority walk stops at it and never reaches [libx264]. *)
Lemma pickEncoder_qsv_hint_not_libx264 :
  pickEncoder ["h264_nvenc"; "libx264"]%string hint_qsv <> libx264.
Proof. vm_compute. discriminate. Qed.

(** C6 (amended): [pickEncoder(["h264_nvenc","libx264"], "qsv")] is
    [h264_nvenc]; in general, when the hint names no available encoder the
    result is the first available of nvenc, qsv, amf, else [libx264] if
    available, else [mpeg4]. *)
Theorem pickEncoder_falls_through :
  pickEncoder ["h264_nvenc"; "libx264"]%string hint_qsv = h264_nvenc
  /\ forall (available : list string) (hint : EncoderHint),
       (forall e, hintedEncoder hint = Some e ->
                  JS.includes available (encoderName e) = false) ->
       pickEncoder available hint = fallThrough available.
Proof.
  split; [reflexivity |].
  intros available hint Hhint. unfold pickEncoder, fallThrough.
  assert (Hoff : forall e, hintedEncoder hint = Some e ->
                           JS.includes available (encoderName e) = false) by exact Hhint.
  destruct hint; simpl;
    try (rewrite (Hoff _ eq_refl)); simpl;
    destruct (JS.includes available "h264_nvenc") eqn:H1;
    destruct (JS.includes available "h264_qsv") eqn:H2;
    destruct (JS.includes available "h264_amf") eqn:H3;
    destruct (JS.includes available "mpeg4") eqn:H4;
    simpl; try reflexivity;
    try (specialize (Hoff _ eq_refl); simpl in Hoff; congruence).
Qed.

Lemma pickEncoder_falls_through_witness :
  pickEncoder ["libx264"]%string hint_qsv = fallThrough ["libx264"]%string.
Proof.
  apply (proj2 pickEncoder_falls_through).
  intros e He. injection He as <-. reflexivity.
Defined.

(** ** Piecewise expressions *)

(** The trees print as the template strings of the source. *)
Example zoomExpression_text :
  show_expr (zoomExpression [front_segment; back_segment])
  = "if(between(t,0.000,1.000),2.0000,if(between(t,0.500,1.500),3.0000,1))"%string.
Proof. vm_compute. reflexivity. Qed.

Example cropXExpression_text :
  escapeExpressionCommas (show_expr (cropXExpression [front_segment]))
  = ("max(0\,min(iw*(if(between(t\,0.000\,1.000)\,2.0000\,1))-iw\,"
     ++ "iw*(if(between(t\,0.000\,1.000)\,0.2500\,0.5))"
     ++ "*(if(between(t\,0.000\,1.000)\,2.0000\,1))-iw/2))")%string.
Proof. vm_compute. reflexivity. Qed.

Example createFilterGraph_unzoomed_text :
  createFilterGraph sampleProject sampleExport
  = ("scale=1792:952:force_original_aspect_ratio=decrease:flags=lanczos,setsar=1,"
     ++ "pad=1920:1080:(ow-iw)/2:(oh-ih)/2:color=0x0f172a")%string.
Proof. vm_compute. reflexivity. Qed.

Lemma Qle_bool_scaled (ms : Q) : Qle_bool 0 (ms / 1000) = Qle_bool 0 ms.
Proof.
  destruct (Qle_bool 0 ms) eqn:H.
  - apply Qle_bool_iff in H. apply Qle_bool_iff.
    apply Qle_shift_div_l; [reflexivity | lra].
  - destruct (Qle_bool 0 (ms / 1000)) eqn:H'; [| reflexivity].
    apply Qle_bool_iff in H'.
    assert (H0 : 0 <= ms).
    { setoid_replace ms with ((ms / 1000) * 1000) by field. nra. }
    apply Qle_bool_iff in H0. congruence.
Qed.

(** What [toSeconds] prints is the millisecond-rounded time, in seconds. *)
Lemma toSeconds_value (ms : Q) :
  JS.decimal_value (toSeconds ms) == roundToMs ms / 1000.
Proof.
  unfold toSeconds, JS.toFixed, JS.decimal_value, roundToMs.
  cbn [JS.d_neg JS.d_digits JS.d_places].
  rewrite Qle_bool_scaled.
  change (JS.pow10 3) with 1000%Z.
  assert (E : Qfloor (Qabs (ms / 1000) * inject_Z 1000 + (1 # 2))
              = Qfloor (Qabs ms + (1 # 2))).
  { apply Qfloor_comp. unfold Qdiv. rewrite Qabs_Qmult.
    change (Qabs (/ 1000)) with (/ 1000). change (inject_Z 1000) with 1000. field. }
  rewrite E.
  destruct (Qle_bool 0 ms); cbn [negb]; change (inject_Z 1000) with 1000; field.
Qed.

Lemma Qfloor_plus_half (n : Z) : Qfloor (inject_Z n + (1 # 2)) = n.
Proof.
  apply Z.le_antisymm.
  - apply Z.lt_succ_r. rewrite Zlt_Qlt.
    apply Qle_lt_trans with (inject_Z n + (1 # 2)); [apply Qfloor_le |].
    unfold Z.succ. rewrite inject_Z_plus. change (inject_Z 1) with 1. lra.
  - rewrite <- (Qfloor_Z n) at 1. apply Qfloor_resp_le. lra.
Qed.

(** On whole milliseconds the printed window is the interval itself. *)
Lemma roundToMs_whole (n : Z) : roundToMs (inject_Z n) == inject_Z n.
Proof.
  unfold roundToMs.
  destruct (Qle_bool 0 (inject_Z n)) eqn:Hsign.
  - apply Qle_bool_iff in Hsign. rewrite Qabs_pos by exact Hsign.
    now rewrite Qfloor_plus_half.
  - assert (Hneg : inject_Z n <= 0).
    { apply Qlt_le_weak, Qnot_le_lt. intro H. apply Qle_bool_iff in H. congruence. }
    rewrite Qabs_neg by exact Hneg.
    assert (E : Qfloor (- inject_Z n + (1 # 2)) = (- n)%Z).
    { rewrite <- inject_Z_opp. apply Qfloor_plus_half. }
    rewrite E, inject_Z_opp. ring.
Qed.

Lemma toPiecewiseExpression_fold segments pickValue fallback :
  toPiecewiseExpression segments pickValue fallback
  = fold_right (fun segment expression => If (window segment) (pickValue segment) expression)
               fallback segments.
Proof. destruct segments; reflexivity. Qed.








(** ** Crop expressions and the view transform *)






Lemma round4_half : round4 (1 # 2) == 1 # 2.
Proof. reflexivity. Qed.

(** A non-negative number with at most four decimals is printed exactly. *)
Lemma round4_four_decimals (n : Z) :
  (0 <= n)%Z -> round4 (inject_Z n / 10000) == inject_Z n / 10000.
Proof.
  intros Hn. rewrite Zle_Qle in Hn. change (inject_Z 0) with 0 in Hn.
  assert (Hpos : 0 <= inject_Z n / 10000).
  { apply Qle_shift_div_l; [reflexivity | lra]. }
  unfold round4, JS.toFixed, JS.decimal_value. cbn [JS.d_neg JS.d_digits JS.d_places].
  assert (Hsign : Qle_bool 0 (inject_Z n / 10000) = true) by now apply Qle_bool_iff.
  rewrite Hsign. cbn [negb]. change (JS.pow10 4) with 10000%Z.
  rewrite Qabs_pos by exact Hpos. change (inject_Z 10000) with 10000.
  assert (E : Qfloor (inject_Z n / 10000 * 10000 + (1 # 2)) = n).
  { rewrite <- (Qfloor_plus_half n) at 2. apply Qfloor_comp. field. }
  rewrite E. reflexivity.
Qed.







(** ** Auto-zoom segmentation *)

Lemma split_last_snoc {A : Type} (front : list A) (last : A) :
  split_last (front ++ [last]) = Some (front, last).
Proof.
  induction front as [| x front IH]; simpl.
  - reflexivity.
  - now rewrite IH.
Qed.

Lemma mergeStep_snoc options front last segment :
  mergeStep options (front ++ [last]) segment
  = if mergeable options last segment then front ++ [absorb last segment]
    else (front ++ [last]) ++ [segment].
Proof. unfold mergeStep. rewrite split_last_snoc. reflexivity. Qed.

Lemma fold_mergeStep options rest : forall front last,
  fold_left (mergeStep options) rest (front ++ [last])
  = front ++ merge_from options last rest.
Proof.
  induction rest as [| segment rest IH]; intros front last.
  - reflexivity.
  - cbn [fold_left merge_from]. rewrite mergeStep_snoc.
    destruct (mergeable options last segment).
    + apply IH.
    + rewrite IH, <- app_assoc. reflexivity.
Qed.

Lemma mapRaw_length uuid n d o events : length (mapRaw uuid n d o events) = length events.
Proof. revert n. induction events; intros n; simpl; [reflexivity | now rewrite IHevents]. Qed.

Lemma buildAutoZooms_merge uuid events d options :
  buildAutoZooms uuid events d options
  = match mapRaw uuid 0 d (mergeOptions options)
            (filter (fun event => shouldUseEvent event (mergeOptions options))
                    (sort_by_atMs events)) with
    | [] => []
    | first :: rest => merge_from (mergeOptions options) first rest
    end.
Proof.
  unfold buildAutoZooms.
  destruct (mapRaw _ _ _ _ _) as [| first [| second rest]]; try reflexivity.
  change (length (first :: second :: rest) <? 2)%nat with false. cbv iota.
  change (fold_left (mergeStep (mergeOptions options)) (first :: second :: rest) [])
    with (fold_left (mergeStep (mergeOptions options)) (second :: rest) ([] ++ [first])).
  now rewrite fold_mergeStep.
Qed.

(* sorting *)
Lemma Qle_bool_false (x y : Q) : Qle_bool x y = false -> y < x.
Proof.
  intros H. apply Qnot_le_lt. intro Hle. apply Qle_bool_iff in Hle. congruence.
Qed.

Lemma insert_by_atMs_In e l x : In x (insert_by_atMs e l) <-> x = e \/ In x l.
Proof.
  induction l as [| o l IH]; simpl.
  - intuition.
  - destruct (Qle_bool (atMs e) (atMs o)); simpl; [intuition |].
    rewrite IH. intuition.
Qed.

Lemma insert_by_atMs_sorted e l :
  StronglySorted notLater l -> StronglySorted notLater (insert_by_atMs e l).
Proof.
  induction 1 as [| o l Hl IH Ho]; simpl.
  - repeat constructor.
  - destruct (Qle_bool (atMs e) (atMs o)) eqn:Hle.
    + apply Qle_bool_iff in Hle. constructor; [now constructor |].
      constructor; [exact Hle |].
      rewrite Forall_forall in *. intros x Hx. unfold notLater in *.
      specialize (Ho x Hx). lra.
    + apply Qle_bool_false in Hle. constructor; [exact IH |].
      rewrite Forall_forall in *. intros x Hx. apply insert_by_atMs_In in Hx as [-> | Hx].
      * unfold notLater. lra.
      * now apply Ho.
Qed.

Lemma sort_by_atMs_sorted events : StronglySorted notLater (sort_by_atMs events).
Proof.
  induction events; simpl; [constructor | now apply insert_by_atMs_sorted].
Qed.

Lemma insert_at_head e l :
  Forall (notLater e) l -> insert_by_atMs e l = e :: l.
Proof.
  intros H. destruct l as [| o l]; [reflexivity |]. simpl.
  inversion H as [| ? ? Ho _]; subst. apply Qle_bool_iff in Ho. now rewrite Ho.
Qed.

Lemma filter_insert (f : RecordingEvent -> bool) e l :
  StronglySorted notLater l ->
  filter f (insert_by_atMs e l)
  = if f e then insert_by_atMs e (filter f l) else filter f l.
Proof.
  induction 1 as [| o l Hl IH Ho]; simpl.
  - destruct (f e); reflexivity.
  - destruct (Qle_bool (atMs e) (atMs o)) eqn:Hle; simpl.
    + destruct (f e) eqn:He; [| reflexivity].
      destruct (f o) eqn:Hfo; simpl.
      * now rewrite Hle.
      * symmetry. apply insert_at_head. apply Qle_bool_iff in Hle.
        rewrite Forall_forall in *. intros x Hx. apply filter_In in Hx as [Hx _].
        specialize (Ho x Hx). unfold notLater in *. lra.
    + rewrite IH. destruct (f o) eqn:Hfo, (f e) eqn:He; simpl; try reflexivity.
      now rewrite Hle.
Qed.

Lemma filter_sort (f : RecordingEvent -> bool) events :
  filter f (sort_by_atMs events) = sort_by_atMs (filter f events).
Proof.
  induction events as [| e events IH]; simpl.
  - reflexivity.
  - rewrite filter_insert by apply sort_by_atMs_sorted.
    destruct (f e); simpl; now rewrite IH.
Qed.

Lemma insert_insert a b l :
  ~ sameTime a b ->
  insert_by_atMs a (insert_by_atMs b l) = insert_by_atMs b (insert_by_atMs a l).
Proof.
  unfold sameTime. intros Hab. induction l as [| o l IH]; simpl.
  - destruct (Qle_bool (atMs a) (atMs b)) eqn:H1, (Qle_bool (atMs b) (atMs a)) eqn:H2;
      try reflexivity.
    + apply Qle_bool_iff in H1, H2. exfalso. apply Hab. lra.
    + apply Qle_bool_false in H1, H2. lra.
  - destruct (Qle_bool (atMs b) (atMs o)) eqn:Hb, (Qle_bool (atMs a) (atMs o)) eqn:Ha; simpl.
    + destruct (Qle_bool (atMs a) (atMs b)) eqn:H1, (Qle_bool (atMs b) (atMs a)) eqn:H2;
        rewrite ?Ha, ?Hb; try reflexivity.
      * apply Qle_bool_iff in H1, H2. exfalso. apply Hab. lra.
      * apply Qle_bool_false in H1, H2. lra.
    + rewrite Hb. destruct (Qle_bool (atMs a) (atMs b)) eqn:H1; simpl.
      * apply Qle_bool_iff in H1, Hb. apply Qle_bool_false in Ha. lra.
      * rewrite Ha. reflexivity.
    + rewrite Ha. destruct (Qle_bool (atMs b) (atMs a)) eqn:H1; simpl.
      * apply Qle_bool_iff in H1, Ha. apply Qle_bool_false in Hb. lra.
      * rewrite Hb. reflexivity.
    + rewrite Ha, Hb, IH. reflexivity.
Qed.

#[local] Instance sameTime_equivalence : Equivalence sameTime.
Proof.
  unfold sameTime. split.
  - intros x. reflexivity.
  - intros x y H. now symmetry.
  - intros x y z H1 H2. now rewrite H1.
Qed.

Lemma sort_permutation [l l'] :
  Permutation l l' -> NoDupA sameTime l -> sort_by_atMs l = sort_by_atMs l'.
Proof.
  induction 1 as [| x l l' Hp IH | x y l | l l' l'' Hp1 IH1 Hp2 IH2]; intros Hnd.
  - reflexivity.
  - simpl. inversion Hnd; subst. now rewrite IH.
  - simpl. apply insert_insert. inversion Hnd as [| ? ? Hy _]; subst.
    intro Hxy. apply Hy. left. now symmetry.
  - rewrite IH1 by exact Hnd. apply IH2.
    apply (PermutationA_preserves_NoDupA sameTime_equivalence) with (l₁ := l); [| exact Hnd].
    now apply Permutation_PermutationA; [apply sameTime_equivalence |].
Qed.

Lemma Permutation_filter {A : Type} (f : A -> bool) [l l' : list A] :
  Permutation l l' -> Permutation (filter f l) (filter f l').
Proof.
  induction 1 as [| x l l' Hp IH | x y l | l l' l'' Hp1 IH1 Hp2 IH2]; simpl.
  - constructor.
  - destruct (f x); [now constructor | exact IH].
  - destruct (f x), (f y); try apply Permutation_refl; apply perm_swap.
  - now transitivity (filter f l').
Qed.

(** C8, as the claim states it, fails: two events with the same [atMs]
    keep their input order (the sort is stable), so swapping them swaps
    the segments. *)
Lemma buildAutoZooms_tie_order_matters :
  Permutation [clickAt "c" 1000; typingAt "t" 1000] [typingAt "t" 1000; clickAt "c" 1000]
  /\ map sourceSignal
         (buildAutoZooms sampleUUID [clickAt "c" 1000; typingAt "t" 1000] 10000 noOptions)
     <> map sourceSignal
          (buildAutoZooms sampleUUID [typingAt "t" 1000; clickAt "c" 1000] 10000 noOptions).
Proof.
  split; [apply perm_swap |]. vm_compute. discriminate.
Qed.

(** C8 (amended): when no two participating events (those of a selected
    kind) share their [atMs], every permutation of the event list gives
    the same segments, the identifiers drawn being the same. *)
Theorem buildAutoZooms_permutation :
  forall (randomUUID : nat -> string) (events events' : list RecordingEvent)
         (durationMs : Q) (options : PartialAutoZoomOptions),
    Permutation events events' ->
    NoDupA sameTime
           (filter (fun event => shouldUseEvent event (mergeOptions options)) events) ->
    buildAutoZooms randomUUID events' durationMs options
    = buildAutoZooms randomUUID events durationMs options.
Proof.
  intros uuid events events' d options Hperm Hnd.
  unfold buildAutoZooms. rewrite !filter_sort.
  rewrite <- (sort_permutation (Permutation_filter _ Hperm) Hnd). reflexivity.
Qed.

Lemma buildAutoZooms_permutation_witness :
  buildAutoZooms sampleUUID [clickAt "a" 1000; typingAt "b" 3000] 10000 noOptions
  = buildAutoZooms sampleUUID [typingAt "b" 3000; clickAt "a" 1000] 10000 noOptions.
Proof.
  apply buildAutoZooms_permutation.
  - apply perm_swap.
  - cbn [filter shouldUseEvent kind typingAt clickAt mergeOptions noOptions or_default
         p_includeClicks p_includeTyping p_includeFocus includeClicks includeTyping
         includeFocus defaultAutoZoomOptions].
    apply NoDupA_cons.
    + intro H. inversion H as [? ? H1 | ? ? H1]; subst.
      * vm_compute in H1. discriminate.
      * inversion H1.
    + apply NoDupA_cons; [intro H; inversion H | apply NoDupA_nil].
Defined.

Lemma signal_eqb_refl s : signal_eqb s s = true.
Proof. now destruct s. Qed.

Lemma sourceSignal_eqb_refl s : sourceSignal_eqb s s = true.
Proof. destruct s; [apply signal_eqb_refl | reflexivity]. Qed.


Lemma toRawSegment_monotone d o u u' a b :
  notLater a b -> startsNotLater (toRawSegment d o u a) (toRawSegment d o u' b).
Proof.
  unfold notLater, startsNotLater. intros H. cbn [toRawSegment startMs].
  apply Q.max_le_compat_l. lra.
Qed.


Lemma mapRaw_after uuid d o u e events : forall n,
  Forall (notLater e) events ->
  Forall (startsNotLater (toRawSegment d o u e)) (mapRaw uuid n d o events).
Proof.
  induction events as [| x events IH]; intros n H; cbn [mapRaw]; constructor;
    inversion H; subst.
  - now apply toRawSegment_monotone.
  - now apply IH.
Qed.

Lemma mapRaw_sorted uuid d o events : forall n,
  StronglySorted notLater events ->
  StronglySorted startsNotLater (mapRaw uuid n d o events).
Proof.
  induction events as [| e events IH]; intros n H; cbn [mapRaw].
  - constructor.
  - apply StronglySorted_inv in H as [Hs He]. constructor.
    + now apply IH.
    + now apply mapRaw_after.
Qed.

Lemma filter_sorted {A : Type} (R : A -> A -> Prop) (f : A -> bool) (l : list A) :
  StronglySorted R l -> StronglySorted R (filter f l).
Proof.
  induction 1 as [| x l Hl IH Hx]; simpl; [constructor |].
  destruct (f x); [| exact IH]. constructor; [exact IH |].
  rewrite Forall_forall in *. intros y Hy. apply filter_In in Hy as [Hy _]. now apply Hx.
Qed.






Lemma Sorted_consecutive {A : Type} [R : A -> A -> Prop] [l : list A] :
  Sorted R l ->
  forall front a b back, l = front ++ a :: b :: back -> R a b.
Proof.
  induction 1 as [| x l Hl IH Hx]; intros front a b back E.
  - destruct front; discriminate.
  - destruct front as [| y front]; cbn in E.
    + injection E as -> ->. now inversion Hx.
    + injection E as -> E. now apply (IH front a b back).
Qed.



(** C4, as the claim states it, fails: the second event at
    1000 + segmentMs + mergeGapMs = 2780 still merges, because its
    candidate starts 120 ms before the event. *)
Lemma buildAutoZooms_2780_still_merges :
  length (buildAutoZooms sampleUUID [clickAt "a" 1000; clickAt "b" 2779] 10000 noOptions)
  = 1%nat
  /\ length (buildAutoZooms sampleUUID [clickAt "a" 1000; clickAt "b" 2780] 10000 noOptions)
     <> 2%nat.
Proof. split; [reflexivity | vm_compute; discriminate]. Qed.

(** C4 (amended): with default options and a duration of at least
    1000 + segmentMs, two events of the same selected kind at 1000 and at
    [second >= 1000] give one merged segment exactly when
    [second <= 1000 + segmentMs + mergeGapMs + 120] (= 2900), and two
    segments when [second] is later (from 2901 on). *)
Theorem buildAutoZooms_merge_boundary :
  forall (randomUUID : nat -> string) (k : EventKind) (id1 id2 : string)
         (x1 y1 x2 y2 : option Q) (durationMs second : Q),
    k <> kind_cursor ->
    1000 + segmentMs defaultAutoZoomOptions <= durationMs ->
    1000 <= second ->
    let boundary :=
      1000 + segmentMs defaultAutoZoomOptions + mergeGapMs defaultAutoZoomOptions + 120 in
    let merged :=
      buildAutoZooms randomUUID
        [mkEvent id1 k 1000 x1 y1; mkEvent id2 k second x2 y2] durationMs noOptions in
    (second <= boundary -> length merged = 1%nat)
    /\ (boundary < second -> length merged = 2%nat).
Proof.
  intros uuid k id1 id2 x1 y1 x2 y2 d second Hk Hd Hsecond boundary merged.
  subst merged boundary. rewrite buildAutoZooms_merge.
  cbn [sort_by_atMs fold_right insert_by_atMs atMs].
  assert (Horder : Qle_bool 1000 second = true) by now apply Qle_bool_iff.
  rewrite Horder.
  assert (Huse : forall i a x y,
             shouldUseEvent (mkEvent i k a x y) (mergeOptions noOptions) = true).
  { intros. destruct k; try reflexivity. now elim Hk. }
  cbn [filter]. rewrite !Huse. cbn [mapRaw merge_from].
  unfold mergeable. cbn [toRawSegment sourceSignal startMs endMs atMs kind].
  rewrite sourceSignal_eqb_refl. cbn [andb].
  change (segmentMs (mergeOptions noOptions)) with 1500.
  change (mergeGapMs (mergeOptions noOptions)) with 280.
  change (segmentMs defaultAutoZoomOptions) with 1500 in *.
  change (mergeGapMs defaultAutoZoomOptions) with 280.
  assert (Hstart : Qmax 0 (second - 120) == second - 120) by (apply Q.max_r; lra).
  assert (Hend : Qmin d (1000 + 1500) == 1000 + 1500) by (apply Q.min_r; lra).
  split; intros Hb.
  - assert (Hclose : Qle_bool (Qmax 0 (second - 120) - Qmin d (1000 + 1500)) 280 = true).
    { apply Qle_bool_iff. rewrite Hstart, Hend. lra. }
    now rewrite Hclose.
  - assert (Hfar : Qle_bool (Qmax 0 (second - 120) - Qmin d (1000 + 1500)) 280 = false).
    { destruct (Qle_bool (Qmax 0 (second - 120) - Qmin d (1000 + 1500)) 280) eqn:E;
        [| reflexivity].
      apply Qle_bool_iff in E. rewrite Hstart, Hend in E. lra. }
    now rewrite Hfar.
Qed.

Lemma buildAutoZooms_merge_boundary_witness :
  length (buildAutoZooms sampleUUID [clickAt "a" 1000; clickAt "b" 2900] 10000 noOptions)
  = 1%nat
  /\ length (buildAutoZooms sampleUUID [clickAt "a" 1000; clickAt "b" 2901] 10000 noOptions)
     = 2%nat.
Proof.
  split.
  - refine (proj1 (buildAutoZooms_merge_boundary sampleUUID kind_click "a" "b"
                     None None None None 10000 2900 _ _ _) _);
      try discriminate; vm_compute; discriminate.
  - refine (proj2 (buildAutoZooms_merge_boundary sampleUUID kind_click "a" "b"
                     None None None None 10000 2901 _ _ _) _);
      try discriminate; vm_compute; reflexivity.
Defined.

(** ** Filter graph *)

Lemma filter_idempotent {A : Type} (f : A -> bool) (l : list A) :
  filter f (filter f l) = filter f l.
Proof.
  induction l as [| x l IH]; simpl; [reflexivity |].
  destruct (f x) eqn:Hx; simpl; [rewrite Hx; now f_equal | exact IH].
Qed.

Lemma createForegroundFilter_active project exportSettings :
  createForegroundFilter project exportSettings
  = createForegroundFilter
      (with_zooms project (filter isActiveZoom (zooms (timeline project))))
      exportSettings.
Proof.
  unfold createForegroundFilter. cbn [with_zooms timeline zooms].
  rewrite filter_idempotent. reflexivity.
Qed.

Lemma unzoomed_inactive (segments : list ZoomSegment) :
  (forall segment, In segment segments -> level segment <= 1) ->
  filter isActiveZoom segments = [].
Proof.
  induction segments as [| s rest IH]; intros H; simpl; [reflexivity |].
  assert (Hs : isActiveZoom s = false).
  { unfold isActiveZoom. assert (Hle : level s <= 1) by (apply H; now left).
    apply Qle_bool_iff in Hle. rewrite Hle. now destruct (disabled s). }
  rewrite Hs. apply IH. intros x Hx. apply H. now right.
Qed.

(** C9: when every zoom segment has level <= 1 the graph is the one of
    the same project without zoom segments; in general the graph depends
    on the zoom list only through its enabled segments of level > 1. *)
Theorem createFilterGraph_only_active_zooms :
  forall (project : ProjectFileV1) (exportSettings : ExportSettings),
    ((forall segment, In segment (zooms (timeline project)) -> level segment <= 1) ->
     createFilterGraph project exportSettings
     = createFilterGraph (with_zooms project []) exportSettings)
    /\ createFilterGraph project exportSettings
       = createFilterGraph
           (with_zooms project (filter isActiveZoom (zooms (timeline project))))
           exportSettings.
Proof.
  intros project exportSettings. split.
  - intros Hall. unfold createFilterGraph, createForegroundFilter.
    cbn [with_zooms timeline zooms background filter].
    rewrite (unzoomed_inactive _ Hall). reflexivity.
  - unfold createFilterGraph. rewrite <- createForegroundFilter_active. reflexivity.
Qed.

Lemma createFilterGraph_only_active_zooms_witness :
  createFilterGraph sampleProject sampleExport
  = createFilterGraph (with_zooms sampleProject []) sampleExport.
Proof.
  apply (proj1 (createFilterGraph_only_active_zooms sampleProject sampleExport)).
  intros segment [<- | []]. vm_compute. discriminate.
Defined.

(** ** Retry loop *)

Section RenderServiceFacts.

Variable spawn : RenderPlan -> FileSystem -> ProcessEnd * FileSystem.
Variable project : ProjectFileV1.
Variable screenTrackPath : string.
Variable ffmpegPath_ : string.
Variable resolvedOutput : string.
Variable backgroundImagePath : option string.

Local Abbreviation loop :=
  (attemptLoop spawn project screenTrackPath ffmpegPath_ resolvedOutput backgroundImagePath).
Local Abbreviation render :=
  (renderAttempts spawn project screenTrackPath ffmpegPath_ resolvedOutput backgroundImagePath).
Local Abbreviation succeeded := (attemptSucceeded resolvedOutput).
Local Abbreviation errorOf := (attemptError resolvedOutput).
Local Abbreviation cleanly :=
  (spawnedCleanly spawn project screenTrackPath ffmpegPath_ resolvedOutput backgroundImagePath).
Local Abbreviation errorAfter := (lastErrorAfter resolvedOutput).

Lemma settle_resolved ending :
  settle ending = Resolved <-> exists stderrLines, ending = proc_close (Some 0%Z) stderrLines.
Proof.
  split.
  - destruct ending as [message | [[| p | p] |] stderrLines]; cbn; try discriminate.
    intros _. now exists stderrLines.
  - intros [stderrLines ->]. reflexivity.
Qed.

Lemma succeeded_no_error (a : Attempt) : succeeded a <-> errorOf a = None.
Proof.
  unfold attemptSucceeded, attemptError, caughtError. split.
  - intros [Hend Hfile]. apply settle_resolved in Hend. now rewrite Hend, Hfile.
  - destruct (settle (attempt_end a)) eqn:Hs; [| discriminate].
    destruct (existsSync (left_fs a) resolvedOutput) eqn:Hf; [| discriminate].
    intros _. split; [now apply settle_resolved | reflexivity].
Qed.

Lemma failed_error (a : Attempt) (message : string) :
  errorOf a = Some message -> ~ succeeded a.
Proof. intros H Hs. apply succeeded_no_error in Hs. congruence. Qed.

Lemma attemptLoop_trace (remaining : list EncoderChoice) :
  forall lastError fs,
    let '(exit, attempts, final) := loop remaining lastError fs in
    (exists untried, remaining = map attempt_encoder attempts ++ untried)
    /\ Forall cleanly attempts
    /\ match exit with
       | LoopReturned encoder =>
           exists failed a,
             attempts = failed ++ [a]
             /\ attempt_encoder a = encoder
             /\ succeeded a
             /\ Forall (fun x => ~ succeeded x) failed
       | LoopThrew =>
           Forall (fun x => ~ succeeded x) attempts
           /\ (length attempts < length remaining)%nat
       | LoopFinished finalError =>
           Forall (fun x => ~ succeeded x) attempts
           /\ map attempt_encoder attempts = remaining
           /\ finalError = errorAfter attempts lastError
       end.
Proof.
  induction remaining as [| encoder rest IH]; intros lastError fs.
  - cbn. split; [now exists [] |]. split; [constructor |].
    split; [constructor | split; reflexivity].
  - cbn [attemptLoop].
    destruct (if existsSync fs resolvedOutput then unlinkSync fs resolvedOutput else Some fs)
      as [cleared |] eqn:Hclear.
    2:{ split; [now exists (encoder :: rest) |]. split; [constructor |].
        split; [constructor | cbn [length]; lia]. }
    assert (Habsent : existsSync cleared resolvedOutput = false).
    { destruct (existsSync fs resolvedOutput) eqn:Hex.
      - unfold unlinkSync in Hclear. destruct (fs resolvedOutput) as [[content |] |];
          try discriminate.
        injection Hclear as <-. unfold existsSync. now rewrite String.eqb_refl.
      - now injection Hclear as <-. }
    unfold runRender.
    destruct (spawn _ cleared) as [ending after] eqn:Hspawned.
    set (attempt := mkAttempt encoder cleared ending after).
    assert (Hclean : cleanly attempt) by (split; [exact Habsent | exact Hspawned]).
    destruct (caughtError resolvedOutput (settle ending) after) as [error |] eqn:Herr.
    + specialize (IH (Some error) after).
      destruct (loop rest (Some error) after) as [[exit attempts] final].
      destruct IH as [[untried Hpre] [Hspawn Hexit]].
      assert (Hfail : ~ succeeded attempt) by (apply (failed_error attempt error); exact Herr).
      split; [exists untried; cbn; now rewrite Hpre | split; [now constructor |]].
      destruct exit as [e | | finalError].
      * destruct Hexit as [failed [a [-> [He [Hs Hf]]]]].
        exists (attempt :: failed), a.
        split; [reflexivity | split; [exact He | split; [exact Hs | now constructor]]].
      * destruct Hexit as [Hf Hlen]. split; [now constructor | cbn; lia].
      * destruct Hexit as [Hf [Hmap ->]].
        split; [now constructor | split; [cbn; now rewrite Hmap |]].
        unfold lastErrorAfter. cbn [fold_left].
        change (errorOf attempt) with (caughtError resolvedOutput (settle ending) after).
        now rewrite Herr.
    + split; [exists rest; reflexivity | split; [constructor; [exact Hclean | constructor] |]].
      exists [], attempt.
      split; [reflexivity | split; [reflexivity | split; [| constructor]]].
      apply succeeded_no_error. exact Herr.
Qed.

Lemma string_app_assoc (a b c : string) : ((a ++ b) ++ c = a ++ (b ++ c))%string.
Proof. induction a as [| ch a IH]; simpl; [reflexivity | now rewrite IH]. Qed.


Lemma join_mentions (sep : string) (parts : list string) (part : string) :
  In part parts -> JS.mentions (JS.join sep parts) part.
Proof.
  induction parts as [| p rest IH]; intros Hin; [contradiction |].
  destruct rest as [| q rest].
  - destruct Hin as [-> | []]. exists EmptyString, EmptyString. cbn.
    clear. induction part as [| ch part IH]; simpl; [reflexivity | now rewrite <- IH].
  - change (JS.join sep (p :: q :: rest)) with (p ++ sep ++ JS.join sep (q :: rest))%string.
    destruct Hin as [-> | Hin].
    + exists EmptyString, (sep ++ JS.join sep (q :: rest))%string. reflexivity.
    + destruct (IH Hin) as [b [a E]]. rewrite E.
      exists (p ++ sep ++ b)%string, a. now rewrite !string_app_assoc.
Qed.





End RenderServiceFacts.



(* ================================================================= *)
(** * Part II, continued: properties of the rest of the code *)
(* ================================================================= *)

(** ** Encoder choice *)

Lemma includes_name (available : list EncoderChoice) (e : EncoderChoice) :
  JS.includes (map encoderName available) (encoderName e) = includes_encoder available e.
Proof.
  unfold JS.includes, includes_encoder. induction available as [| x rest IH]; simpl.
  - reflexivity.
  - rewrite IH. f_equal. destruct e, x; reflexivity.
Qed.

Lemma pickEncoder_cases (available : list string) (hint : EncoderHint) :
  JS.includes available (encoderName (pickEncoder available hint)) = true
  \/ pickEncoder available hint = mpeg4.
Proof.
  unfold pickEncoder.
  destruct (hint_eqb hint hint_nvenc && JS.includes available "h264_nvenc") eqn:H1.
  { left. now apply andb_true_iff in H1. }
  destruct (hint_eqb hint hint_qsv && JS.includes available "h264_qsv") eqn:H2.
  { left. now apply andb_true_iff in H2. }
  destruct (hint_eqb hint hint_amf && JS.includes available "h264_amf") eqn:H3.
  { left. now apply andb_true_iff in H3. }
  destruct (hint_eqb hint hint_mpeg4 && JS.includes available "mpeg4") eqn:H4.
  { now right. }
  cbn [find encoderName].
  destruct (JS.includes available "h264_nvenc") eqn:A1; [now left |].
  destruct (JS.includes available "h264_qsv") eqn:A2; [now left |].
  destruct (JS.includes available "h264_amf") eqn:A3; [now left |].
  destruct (JS.includes available "libx264") eqn:A4; [now left | now right].
Qed.

Lemma pickEncoder_hinted (available : list string) (hint : EncoderHint)
  (e : EncoderChoice) :
  hintedEncoder hint = Some e ->
  JS.includes available (encoderName e) = true ->
  pickEncoder available hint = e.
Proof.
  intros Hhint Hin. unfold pickEncoder.
  destruct hint; cbn in Hhint; try discriminate; injection Hhint as <-;
    cbn [encoderName] in Hin; cbn [hint_eqb andb]; rewrite ?Hin; cbn [andb];
    reflexivity.
Qed.

(** X1: [pickEncoder] honours a hint that names an available encoder, and
    whatever the hint it returns an encoder whose name is in [available],
    or [mpeg4]. *)
Theorem pickEncoder_contract :
  forall (available : list string) (hint : EncoderHint),
    (forall e, hintedEncoder hint = Some e ->
               JS.includes available (encoderName e) = true ->
               pickEncoder available hint = e)
    /\ (JS.includes available (encoderName (pickEncoder available hint)) = true
        \/ pickEncoder available hint = mpeg4).
Proof.
  intros available hint. split.
  - intros e. apply pickEncoder_hinted.
  - apply pickEncoder_cases.
Qed.

Lemma pickEncoder_contract_witness :
  pickEncoder ["h264_nvenc"; "h264_qsv"; "libx264"]%string hint_qsv = h264_qsv.
Proof.
  apply (proj1 (pickEncoder_contract ["h264_nvenc"; "h264_qsv"; "libx264"]%string hint_qsv));
    reflexivity.
Defined.

(** ** The attempt chain *)

Lemma dedupe_from_In (xs seen : list EncoderChoice) (e : EncoderChoice) :
  In e (seen ++ dedupe_from seen xs) <-> In e seen \/ In e xs.
Proof.
  revert seen. induction xs as [| x rest IH]; intros seen; cbn [dedupe_from].
  - rewrite app_nil_r. cbn. tauto.
  - destruct (includes_encoder seen x) eqn:Hx.
    + rewrite IH. apply includes_encoder_In in Hx. cbn. split.
      * intros [H | H]; [now left | right; now right].
      * intros [H | [<- | H]]; [now left | now left | now right].
    + replace (seen ++ x :: dedupe_from (seen ++ [x]) rest)
        with ((seen ++ [x]) ++ dedupe_from (seen ++ [x]) rest)
        by now rewrite <- app_assoc.
      rewrite IH, in_app_iff. cbn. tauto.
Qed.

Lemma all_in_priority (e : EncoderChoice) : In e ENCODER_PRIORITY.
Proof. destruct e; cbn; tauto. Qed.

Lemma buildEncoderAttempts_In (available : list EncoderChoice)
  (preferred e : EncoderChoice) :
  In e (buildEncoderAttempts available preferred)
  <-> e = preferred \/ In e available \/ e = libx264 \/ e = mpeg4.
Proof.
  rewrite buildEncoderAttempts_as_fold, fold_push_dedupe.
  rewrite (dedupe_from_In _ [] e). cbn [In app].
  rewrite in_app_iff, filter_In, includes_encoder_In. cbn [In].
  pose proof (all_in_priority e). intuition.
Qed.

(** X2: the chain consists of exactly the preferred encoder, the
    available encoders, [libx264] and [mpeg4]. *)
Theorem buildEncoderAttempts_members :
  forall (available : list EncoderChoice) (preferred e : EncoderChoice),
    In e (buildEncoderAttempts available preferred)
    <-> e = preferred \/ In e available \/ e = libx264 \/ e = mpeg4.
Proof. exact buildEncoderAttempts_In. Qed.

Lemma prefix_app (a b : string) :
  String.prefix a b = true <-> exists c, b = (a ++ c)%string.
Proof.
  revert b. induction a as [| x a IH]; intros b.
  - split; [intros _; now exists b | intros _; now destruct b].
  - destruct b as [| y b]; cbn.
    + split; [discriminate | intros [c H]; discriminate].
    + destruct (ascii_dec x y) as [-> | Hne].
      * rewrite IH. split; intros [c H]; exists c; [now rewrite H | now injection H].
      * split; [discriminate | intros [c H]; injection H as H _; now elim Hne].
Qed.

(** [includes] is the search for a contiguous part. *)
Lemma string_includes_mentions (hay needle : string) :
  string_includes hay needle = true <-> JS.mentions hay needle.
Proof.
  split.
  - induction hay as [| c hay IH]; cbn [string_includes].
    + destruct (String.prefix needle EmptyString) eqn:Hp; [| discriminate].
      intros _. apply prefix_app in Hp as [after H]. exists EmptyString, after. exact H.
    + destruct (String.prefix needle (String c hay)) eqn:Hp.
      * intros _. apply prefix_app in Hp as [after H]. exists EmptyString, after. exact H.
      * intros H. destruct (IH H) as [before [after E]].
        exists (String c before), after. cbn. now rewrite E.
  - intros [before [after E]]. subst hay. induction before as [| c before IH].
    + cbn [append]. assert (Hp : String.prefix needle (needle ++ after) = true)
        by (apply prefix_app; now exists after).
      destruct (needle ++ after)%string; cbn [string_includes]; now rewrite Hp.
    + cbn [append string_includes]. rewrite IH.
      now destruct (String.prefix needle (String c (before ++ needle ++ after))).
Qed.

Lemma getAvailableEncoders_hardware (ending : ProbeEnd) (e : EncoderChoice) :
  In e (getAvailableEncoders ending) -> isHardware e = true ->
  exists chunks,
    ending = probe_close chunks /\ JS.mentions (collectStdout chunks) (encoderName e).
Proof.
  destruct ending as [| chunks]; cbn [getAvailableEncoders].
  - intros [<- | [<- | []]]; discriminate.
  - intros Hin Hhw. exists chunks. split; [reflexivity |].
    destruct (filter _ ENCODER_PRIORITY) as [| x rest] eqn:Hf.
    + destruct Hin as [<- | [<- | []]]; discriminate.
    + rewrite <- Hf in Hin. apply filter_In in Hin as [_ Hin].
      now apply string_includes_mentions.
Qed.


Lemma encoderName_injective (a b : EncoderChoice) :
  encoderName a = encoderName b -> a = b.
Proof. destruct a, b; cbn; intros H; try reflexivity; discriminate. Qed.

(** X4: the chain built from a probe and a hint never contains a hardware
    encoder the probe did not advertise; it always contains both software
    encoders, and it starts with the encoder [pickEncoder] chose. *)
Theorem encoderAttemptsFor_sound :
  forall (ending : ProbeEnd) (hint : EncoderHint),
    (forall e, In e (encoderAttemptsFor ending hint) -> isHardware e = true ->
               exists chunks,
                 ending = probe_close chunks
                 /\ JS.mentions (collectStdout chunks) (encoderName e))
    /\ In libx264 (encoderAttemptsFor ending hint)
    /\ In mpeg4 (encoderAttemptsFor ending hint)
    /\ hd_error (encoderAttemptsFor ending hint)
       = Some (pickEncoder (map encoderName (getAvailableEncoders ending)) hint).
Proof.
  intros ending hint. unfold encoderAttemptsFor. split; [| split; [| split]].
  - intros e Hin Hhw. apply buildEncoderAttempts_In in Hin.
    apply getAvailableEncoders_hardware; [| exact Hhw].
    destruct Hin as [-> | [Hin | [-> | ->]]]; try discriminate; [| exact Hin].
    destruct (pickEncoder_cases (map encoderName (getAvailableEncoders ending)) hint)
      as [Hav | Hm].
    + rewrite includes_name in Hav. now apply includes_encoder_In.
    + rewrite Hm in Hhw. discriminate.
  - apply buildEncoderAttempts_In. tauto.
  - apply buildEncoderAttempts_In. tauto.
  - rewrite buildEncoderAttempts_as_fold, fold_push_dedupe. reflexivity.
Qed.

(** ** The executor, continued *)

Lemma fold_pushTail (lines tail : list string) :
  (length tail <= 30)%nat ->
  fold_left pushTail lines tail
  = skipn (length (tail ++ lines) - 30) (tail ++ lines).
Proof.
  revert tail. induction lines as [| line lines IH]; intros tail Hlen.
  - rewrite app_nil_r. cbn [fold_left].
    replace (length tail - 30)%nat with 0%nat by lia. reflexivity.
  - cbn [fold_left]. unfold pushTail at 2.
    destruct (30 <? length (tail ++ [line]))%nat eqn:Hfull.
    + apply Nat.ltb_lt in Hfull. rewrite length_app in Hfull. cbn [length] in Hfull.
      destruct tail as [| oldest tail]; [cbn in Hfull; lia |].
      cbn [app tl]. rewrite IH by (rewrite length_app; cbn [length] in *; lia).
      rewrite <- app_assoc. cbn [app].
      replace (length (oldest :: tail ++ line :: lines) - 30)%nat
        with (S (length (tail ++ line :: lines) - 30))%nat
        by (cbn [length] in *; rewrite !length_app in *; cbn [length] in *; lia).
      reflexivity.
    + apply Nat.ltb_ge in Hfull. rewrite IH by exact Hfull.
      now rewrite <- app_assoc.
Qed.

(** The diagnostic buffer holds the last 30 lines pushed, in order. *)
Lemma stderrTail_is_last_30 :
  forall (stderrLines : list string),
    fold_left pushTail stderrLines [] = skipn (length stderrLines - 30) stderrLines.
Proof. intros stderrLines. apply (fold_pushTail stderrLines []). cbn. lia. Qed.

(** X5: a process that closes with any code but 0 rejects with a message
    that states the code and carries each of the last 30 stderr lines; an
    ['error'] event rejects with the event's own message. *)
Theorem settle_rejection_message :
  forall (code : option Z) (stderrLines : list string),
    code <> Some 0%Z ->
    exists message,
      settle (proc_close code stderrLines) = Rejected message
      /\ JS.mentions message ("FFmpeg exited with code " ++ show_code code ++ ".")
      /\ forall line,
           In line (skipn (length stderrLines - 30) stderrLines) ->
           JS.mentions message line.
Proof.
  intros code stderrLines Hcode.
  assert (Hsettle : settle (proc_close code stderrLines)
                    = Rejected ("FFmpeg exited with code " ++ show_code code ++ "."
                                ++ match fold_left pushTail stderrLines [] with
                                   | [] => EmptyString
                                   | _ => newline
                                          ++ JS.join newline (fold_left pushTail stderrLines [])
                                   end)%string).
  { destruct code as [[| p | p] |]; try reflexivity. now elim Hcode. }
  eexists. split; [exact Hsettle | split].
  - exists EmptyString. eexists. cbn [append]. rewrite !string_app_assoc. reflexivity.
  - intros line Hline.
    pose proof (fold_pushTail stderrLines [] ltac:(cbn; lia)) as Hfold.
    cbn [app] in Hfold. rewrite <- Hfold in Hline. clear Hfold.
    destruct (fold_left pushTail stderrLines []) as [| first rest] eqn:Htail;
      [contradiction |].
    destruct (join_mentions newline (first :: rest) line Hline) as [before [after E]].
    exists ("FFmpeg exited with code " ++ show_code code ++ "." ++ newline ++ before)%string,
           after.
    rewrite E, !string_app_assoc. reflexivity.
Qed.

Lemma settle_rejection_message_witness :
  exists message,
    settle (proc_close (Some 1%Z) ["Unknown encoder"%string]) = Rejected message
    /\ JS.mentions message "Unknown encoder".
Proof.
  destruct (settle_rejection_message (Some 1%Z) ["Unknown encoder"%string])
    as [message [Hsettle [_ Hlines]]]; [discriminate |].
  exists message. split; [exact Hsettle | apply Hlines; now left].
Defined.

(** ** The retry loop, continued *)

Section RenderServiceMore.

Variable spawn : RenderPlan -> FileSystem -> ProcessEnd * FileSystem.
Variable project : ProjectFileV1.
Variable screenTrackPath : string.
Variable ffmpegPath_ : string.
Variable resolvedOutput : string.
Variable backgroundImagePath : option string.

Local Abbreviation loop :=
  (attemptLoop spawn project screenTrackPath ffmpegPath_ resolvedOutput backgroundImagePath).
Local Abbreviation render :=
  (renderAttempts spawn project screenTrackPath ffmpegPath_ resolvedOutput backgroundImagePath).

Lemma attemptLoop_disk (remaining : list EncoderChoice) :
  forall lastError fs,
    let '(exit, attempts, final) := loop remaining lastError fs in
    final = diskAfter attempts fs.
Proof.
  induction remaining as [| encoder rest IH]; intros lastError fs.
  - reflexivity.
  - cbn [attemptLoop].
    destruct (if existsSync fs resolvedOutput then unlinkSync fs resolvedOutput else Some fs)
      as [cleared |]; [| reflexivity].
    unfold runRender. destruct (spawn _ cleared) as [ending after].
    destruct (caughtError resolvedOutput (settle ending) after) as [error |].
    + specialize (IH (Some error) after).
      destruct (loop rest (Some error) after) as [[exit attempts] final].
      exact IH.
    + reflexivity.
Qed.

(** X6: the file system at the end is the one the last spawned process
    left (nothing is cleaned up after the last attempt); and when the
    operation reports success, the path it reports is the resolved output
    path, the encoder is one of the chain, and the output file is on disk
    at the end. *)
Theorem export_success_leaves_output :
  forall (encoderAttempts : list EncoderChoice) (fs : FileSystem),
    let '(outcome, attempts, final) := render encoderAttempts fs in
    final = diskAfter attempts fs
    /\ forall out encoder,
         outcome = Exported out encoder ->
         out = resolvedOutput
         /\ In encoder encoderAttempts
         /\ existsSync final resolvedOutput = true.
Proof.
  intros encoderAttempts fs. unfold renderAttempts.
  pose proof (attemptLoop_trace spawn project screenTrackPath ffmpegPath_ resolvedOutput
                backgroundImagePath encoderAttempts None fs) as Htrace.
  pose proof (attemptLoop_disk encoderAttempts None fs) as Hdisk.
  destruct (loop encoderAttempts None fs) as [[exit attempts] final].
  destruct Htrace as [[untried Hprefix] [_ Hexit]].
  split; [exact Hdisk |].
  intros out encoder Hout. destruct exit as [e | | finalError]; try discriminate.
  injection Hout as <- <-.
  destruct Hexit as [failed [a [E [He [[_ Hfile] _]]]]].
  split; [reflexivity | split].
  - rewrite Hprefix, E, map_app, <- He. cbn. rewrite in_app_iff. left.
    rewrite in_app_iff. right. now left.
  - rewrite Hdisk, E. unfold diskAfter. rewrite fold_left_app. exact Hfile.
Qed.

(** X7: when a directory sits at the output path and the chain is not
    empty, [unlinkSync] throws before any process is spawned. *)
Theorem directory_at_output_stops_export :
  forall (encoderAttempts : list EncoderChoice) (fs : FileSystem),
    fs resolvedOutput = Some Directory ->
    encoderAttempts <> [] ->
    render encoderAttempts fs = (UnlinkError, [], fs).
Proof.
  intros encoderAttempts fs Hdir Hne.
  destruct encoderAttempts as [| encoder rest]; [now elim Hne |].
  unfold renderAttempts. cbn [attemptLoop]. unfold existsSync, unlinkSync.
  rewrite Hdir. reflexivity.
Qed.

End RenderServiceMore.

Lemma export_success_leaves_output_witness :
  fst (fst (renderAttempts pickySpawn sampleProject "in.webm" "ffmpeg" "out.mp4" None
                           [h264_nvenc; libx264; mpeg4] staleDisk))
  = Exported "out.mp4" libx264
  /\ existsSync
       (snd (renderAttempts pickySpawn sampleProject "in.webm" "ffmpeg" "out.mp4" None
                            [h264_nvenc; libx264; mpeg4] staleDisk))
       "out.mp4"
     = true.
Proof.
  pose proof (export_success_leaves_output pickySpawn sampleProject "in.webm" "ffmpeg"
                "out.mp4" None [h264_nvenc; libx264; mpeg4] staleDisk) as H.
  destruct (renderAttempts pickySpawn sampleProject "in.webm" "ffmpeg" "out.mp4" None
                           [h264_nvenc; libx264; mpeg4] staleDisk)
    as [[outcome attempts] final] eqn:E.
  assert (Hout : outcome = Exported "out.mp4" libx264).
  { vm_compute in E. now injection E as <- _ _. }
  split; [exact Hout |].
  exact (proj2 (proj2 (proj2 H "out.mp4"%string libx264 Hout))).
Defined.

Lemma directory_at_output_stops_export_witness :
  renderAttempts failingSpawn sampleProject "in.webm" "ffmpeg" "out.mp4" None
                 [libx264; mpeg4]
                 (fun path => if String.eqb path "out.mp4" then Some Directory else None)
  = (UnlinkError, [],
     fun path => if String.eqb path "out.mp4" then Some Directory else None).
Proof.
  apply directory_at_output_stops_export; [reflexivity | discriminate].
Defined.

(** ** File stem *)

Lemma replaceOutsideStem_allowed (value : string) :
  string_forall isStemChar (replaceOutsideStem value) = true.
Proof.
  induction value as [| c rest IH]; cbn [replaceOutsideStem string_forall].
  - reflexivity.
  - rewrite IH. destruct (isStemChar c) eqn:Hc; [now rewrite Hc | reflexivity].
Qed.

Lemma replaceOutsideStem_fixed (s : string) :
  string_forall isStemChar s = true -> replaceOutsideStem s = s.
Proof.
  induction s as [| c rest IH]; cbn [replaceOutsideStem string_forall].
  - reflexivity.
  - intros H. apply andb_true_iff in H as [Hc Hrest]. now rewrite Hc, IH.
Qed.

Lemma trim_start_forall (p : ascii -> bool) (s : string) :
  string_forall p s = true -> string_forall p (trim_start s) = true.
Proof.
  induction s as [| c rest IH]; cbn [trim_start]; [reflexivity |].
  intros H. destruct (is_space c); [| exact H].
  cbn [string_forall] in H. apply andb_true_iff in H as [_ H]. now apply IH.
Qed.

Lemma trim_end_forall (p : ascii -> bool) (s : string) :
  string_forall p s = true -> string_forall p (trim_end s) = true.
Proof.
  induction s as [| c rest IH]; cbn [trim_end]; [reflexivity |].
  intros H. cbn [string_forall] in H. apply andb_true_iff in H as [Hc Hrest].
  specialize (IH Hrest). destruct (trim_end rest) as [| k kept].
  - destruct (is_space c); cbn [string_forall]; [reflexivity | now rewrite Hc].
  - cbn [string_forall] in *. now rewrite Hc, IH.
Qed.

Lemma trim_end_idempotent (s : string) : trim_end (trim_end s) = trim_end s.
Proof.
  induction s as [| c rest IH]; cbn [trim_end]; [reflexivity |].
  destruct (trim_end rest) as [| k kept] eqn:Hrest.
  - destruct (is_space c) eqn:Hc; cbn [trim_end]; [reflexivity | now rewrite Hc].
  - cbn [trim_end] in *. now rewrite IH.
Qed.

Lemma trim_start_head (s : string) :
  match trim_start s with
  | EmptyString => True
  | String c _ => is_space c = false
  end.
Proof.
  induction s as [| c rest IH]; cbn [trim_start]; [exact I |].
  destruct (is_space c) eqn:Hc; [exact IH | exact Hc].
Qed.

Lemma trim_end_keeps_head (c : ascii) (rest : string) :
  is_space c = false -> exists kept, trim_end (String c rest) = String c kept.
Proof.
  intros Hc. cbn [trim_end]. destruct (trim_end rest) as [| k kept].
  - rewrite Hc. now exists EmptyString.
  - now exists (String k kept).
Qed.

Lemma trim_idempotent (s : string) : trim (trim s) = trim s.
Proof.
  unfold trim. pose proof (trim_start_head s) as Hhead.
  destruct (trim_start s) as [| c rest]; [reflexivity |].
  destruct (trim_end_keeps_head c rest Hhead) as [kept E].
  rewrite E. cbn [trim_start]. rewrite Hhead, <- E. apply trim_end_idempotent.
Qed.

(** X8: the file stem is never empty, consists only of ASCII letters,
    digits, [-], [_], [.] and spaces, and sanitising it again changes
    nothing. *)
Theorem sanitizeFileStem_safe :
  forall (value : string),
    sanitizeFileStem value <> EmptyString
    /\ string_forall isStemChar (sanitizeFileStem value) = true
    /\ sanitizeFileStem (sanitizeFileStem value) = sanitizeFileStem value.
Proof.
  intros value.
  pose proof (trim_end_forall isStemChar _
                (trim_start_forall isStemChar _ (replaceOutsideStem_allowed value)))
    as Hallowed.
  pose proof (trim_idempotent (replaceOutsideStem value)) as Hidem.
  fold (trim (replaceOutsideStem value)) in Hallowed.
  assert (Hvalue : sanitizeFileStem value
                   = match trim (replaceOutsideStem value) with
                     | EmptyString => "revamp-export"%string
                     | stem => stem
                     end) by reflexivity.
  destruct (trim (replaceOutsideStem value)) as [| c stem] eqn:Htrim; rewrite Hvalue.
  - split; [discriminate | split; reflexivity].
  - split; [discriminate | split; [exact Hallowed |]].
    unfold sanitizeFileStem.
    rewrite (replaceOutsideStem_fixed _ Hallowed), Hidem. reflexivity.
Qed.

(** ** The compiled expressions at every frame time *)

(** X9: the frame margin is never negative and never more than the
    requested padding plus inset; for an export of at least 2 x 2 pixels
    it leaves an inner frame of at least 2 x 2. *)
Theorem computeFrameMargin_bounds :
  forall (project : ProjectFileV1) (exportSettings : ExportSettings),
    let margin := computeFrameMargin project exportSettings in
    let background := background (timeline project) in
    (0 <= margin)%Z
    /\ (margin <= Z.max 0 (JS.Math_round (padding background)
                           + JS.Math_round (inset background)))%Z
    /\ ((2 <= width exportSettings)%Z -> (2 <= height exportSettings)%Z ->
        (2 <= width exportSettings - margin * 2)%Z
        /\ (2 <= height exportSettings - margin * 2)%Z).
Proof.
  intros project exportSettings margin bg. subst margin bg.
  unfold computeFrameMargin, JS.floor_half.
  set (requested := (JS.Math_round _ + JS.Math_round _)%Z).
  pose proof (Z.div_mod (width exportSettings - 2) 2 ltac:(lia)) as Hw.
  pose proof (Z.mod_pos_bound (width exportSettings - 2) 2 ltac:(lia)) as Hwm.
  pose proof (Z.div_mod (height exportSettings - 2) 2 ltac:(lia)) as Hh.
  pose proof (Z.mod_pos_bound (height exportSettings - 2) 2 ltac:(lia)) as Hhm.
  repeat split; lia.
Qed.

Lemma computeFrameMargin_bounds_witness :
  (2 <= width sampleExport - computeFrameMargin sampleProject sampleExport * 2)%Z
  /\ (2 <= height sampleExport - computeFrameMargin sampleProject sampleExport * 2)%Z.
Proof.
  apply (proj2 (proj2 (computeFrameMargin_bounds sampleProject sampleExport)));
    vm_compute; discriminate.
Defined.

Lemma round4_at_least_1 (x : Q) : 1 <= x -> 1 <= round4 x.
Proof.
  intros Hlo. unfold round4, JS.toFixed, JS.decimal_value.
  cbn [JS.d_neg JS.d_digits JS.d_places].
  assert (Hpos : Qle_bool 0 x = true) by (apply Qle_bool_iff; lra).
  rewrite Hpos. cbn [negb]. change (JS.pow10 4) with 10000%Z.
  rewrite Qabs_pos by lra. change (inject_Z 10000) with 10000.
  assert (H1 := Qfloor_resp_le 10000 (x * 10000 + (1 # 2)) ltac:(lra)).
  change (Qfloor 10000) with 10000%Z in H1.
  set (n := Qfloor (x * 10000 + (1 # 2))) in *.
  rewrite Zle_Qle in H1. change (inject_Z 10000) with 10000 in H1.
  clearbody n. revert H1. generalize (inject_Z n). intros q H1.
  apply Qle_shift_div_l; [reflexivity | lra].
Qed.

Lemma zoomExpression_at_least_1 (segments : list ZoomSegment) (env : Env) :
  1 <= eval env (zoomExpression segments).
Proof.
  unfold zoomExpression. rewrite toPiecewiseExpression_fold.
  induction segments as [| head rest IH]; cbn [fold_right].
  - vm_compute. discriminate.
  - cbn [eval]. change (Between _ _ _) with (window head).
    destruct (Qeq_bool (eval env (window head)) 0); [exact IH |].
    unfold pickLevel. cbn [eval]. apply round4_at_least_1. apply Q.le_max_l.
Qed.

Lemma cropExpression_range (side : Var) (norm zoomE : Expr) (env : Env) :
  0 <= lookup env side -> 1 <= eval env zoomE ->
  0 <= eval env (cropExpression side norm zoomE)
  /\ eval env (cropExpression side norm zoomE)
     <= lookup env side * eval env zoomE - lookup env side.
Proof.
  intros Hside Hz. cbn [cropExpression eval lit_0 lit_2].
  change (JS.decimal_value (JS.mkDecimal false 0 0)) with (0 / 1).
  setoid_replace (0 / 1) with 0 by reflexivity.
  split; [apply Q.le_max_l |].
  apply Q.max_lub; [nra | apply Q.le_min_l].
Qed.

(** X10: at every frame time and for every list of segments, the zoom
    expression is at least 1 and, for a non-negative frame, both crop
    offsets lie between 0 and the slack of the scaled frame
    ([iw*zoom - iw], [ih*zoom - ih]): the crop window never leaves the
    scaled picture. *)
Theorem crop_window_stays_inside :
  forall (segments : list ZoomSegment) (env : Env),
    0 <= env_iw env ->
    0 <= env_ih env ->
    let zoom := eval env (zoomExpression segments) in
    1 <= zoom
    /\ 0 <= eval env (cropXExpression segments) <= env_iw env * zoom - env_iw env
    /\ 0 <= eval env (cropYExpression segments) <= env_ih env * zoom - env_ih env.
Proof.
  intros segments env Hw Hh zoom. subst zoom.
  pose proof (zoomExpression_at_least_1 segments env) as Hz.
  split; [exact Hz | split].
  - exact (cropExpression_range var_iw (xNormExpression segments) _ env Hw Hz).
  - exact (cropExpression_range var_ih (yNormExpression segments) _ env Hh Hz).
Qed.

Lemma crop_window_stays_inside_witness :
  0 <= eval mid_env (cropXExpression [front_segment; back_segment])
  <= env_iw mid_env * eval mid_env (zoomExpression [front_segment; back_segment])
     - env_iw mid_env.
Proof.
  refine (proj1 (proj2 (crop_window_stays_inside [front_segment; back_segment] mid_env _ _)));
    vm_compute; discriminate.
Defined.



Lemma roundToMs_close (ms : Q) : Qabs (roundToMs ms - ms) <= 1 # 2.
Proof.
  unfold roundToMs.
  pose proof (Qfloor_le (Qabs ms + (1 # 2))) as Hlo.
  pose proof (Qlt_floor (Qabs ms + (1 # 2))) as Hhi.
  rewrite inject_Z_plus in Hhi. change (inject_Z 1) with 1 in Hhi.
  set (n := inject_Z (Qfloor (Qabs ms + (1 # 2)))) in *. clearbody n.
  destruct (Qle_bool 0 ms) eqn:Hsign.
  - apply Qle_bool_iff in Hsign. rewrite (Qabs_pos ms Hsign) in Hlo, Hhi.
    apply Qabs_Qle_condition. split; lra.
  - apply Qle_bool_false in Hsign.
    rewrite (Qabs_neg ms) in Hlo, Hhi by lra.
    apply Qabs_Qle_condition. split; lra.
Qed.

(** X12: the time [toSeconds] prints is within half a millisecond of the
    time it is given. *)
Theorem toSeconds_within_half_ms :
  forall (ms : Q),
    Qabs (JS.decimal_value (toSeconds ms) * 1000 - ms) <= 1 # 2.
Proof.
  intros ms. rewrite toSeconds_value.
  setoid_replace (roundToMs ms / 1000 * 1000 - ms) with (roundToMs ms - ms) by field.
  apply roundToMs_close.
Qed.

(** ** The view transform *)

Lemma clamp_range (value lo hi : Q) : lo <= hi -> lo <= clamp value lo hi <= hi.
Proof.
  intros H. unfold clamp. split.
  - apply Q.min_glb; [apply Q.le_max_r | exact H].
  - apply Q.le_min_r.
Qed.

Lemma viewport_fits (frame scale : Q) : 0 <= frame -> 1 <= scale -> 0 <= frame / scale <= frame.
Proof.
  intros Hf Hs. split.
  - apply Qle_shift_div_l; lra.
  - apply Qle_shift_div_r; [lra | nra].
Qed.

(** X13: for a non-negative frame the view transform has a scale in
    [1,4] and its corner keeps the viewport inside the frame:
    [0 <= xPx <= frameWidth - frameWidth/scale], and likewise for y,
    whatever the segment's level and target are. *)
Theorem computeViewTransform_bounds :
  forall (zoom : option ZoomSegment) (frameWidth frameHeight : Q),
    0 <= frameWidth ->
    0 <= frameHeight ->
    let view := computeViewTransform zoom frameWidth frameHeight in
    1 <= scale view <= 4
    /\ 0 <= xPx view <= frameWidth - frameWidth / scale view
    /\ 0 <= yPx view <= frameHeight - frameHeight / scale view.
Proof.
  intros zoom W H HW HH view. subst view. destruct zoom as [zoom |].
  - cbn [computeViewTransform scale xPx yPx].
    pose proof (clamp_range (level zoom) 1 4 ltac:(lra)) as Hs.
    pose proof (viewport_fits W (clamp (level zoom) 1 4) HW (proj1 Hs)) as Hvw.
    pose proof (viewport_fits H (clamp (level zoom) 1 4) HH (proj1 Hs)) as Hvh.
    split; [exact Hs | split]; apply clamp_range; lra.
  - cbn [computeViewTransform scale xPx yPx].
    setoid_replace (W / 1) with W by field. setoid_replace (H / 1) with H by field.
    repeat split; lra.
Qed.

Lemma computeViewTransform_bounds_witness :
  0 <= xPx (computeViewTransform (Some front_segment) 1920 1080)
  <= 1920 - 1920 / scale (computeViewTransform (Some front_segment) 1920 1080).
Proof.
  refine (proj1 (proj2 (computeViewTransform_bounds (Some front_segment) 1920 1080 _ _)));
    vm_compute; discriminate.
Defined.

Lemma clamped_window_holds_point (point size frame : Q) :
  0 <= size <= frame -> 0 <= point <= frame ->
  clamp (point - size / 2) 0 (frame - size) <= point
  /\ point <= clamp (point - size / 2) 0 (frame - size) + size.
Proof.
  intros Hsize Hpoint. unfold clamp.
  assert (Hhalf : size == size / 2 + size / 2) by field.
  set (half := size / 2) in *. clearbody half.
  destruct (Q.max_spec (point - half) 0) as [[H1 E1] | [H1 E1]];
    destruct (Q.min_spec (Qmax (point - half) 0) (frame - size)) as [[H2 E2] | [H2 E2]];
    rewrite E2; try rewrite E1 in H2; try rewrite E1; split; lra.
Qed.

(** X14: when the target lies in the unit square, the viewport of the
    view transform (corner [xPx, yPx], size frame/scale) contains the
    target point. *)
Theorem viewport_contains_target :
  forall (zoom : ZoomSegment) (frameWidth frameHeight : Q),
    0 <= frameWidth ->
    0 <= frameHeight ->
    0 <= xNorm (targetOf zoom) <= 1 ->
    0 <= yNorm (targetOf zoom) <= 1 ->
    let view := computeViewTransform (Some zoom) frameWidth frameHeight in
    xPx view <= xNorm (targetOf zoom) * frameWidth <= xPx view + frameWidth / scale view
    /\ yPx view <= yNorm (targetOf zoom) * frameHeight
                <= yPx view + frameHeight / scale view.
Proof.
  intros zoom W H HW HH Hx Hy view. subst view.
  cbn [computeViewTransform scale xPx yPx]. fold (targetOf zoom).
  pose proof (clamp_range (level zoom) 1 4 ltac:(lra)) as Hs.
  pose proof (viewport_fits W (clamp (level zoom) 1 4) HW (proj1 Hs)) as Hvw.
  pose proof (viewport_fits H (clamp (level zoom) 1 4) HH (proj1 Hs)) as Hvh.
  split; apply clamped_window_holds_point; try assumption; nra.
Qed.

Lemma viewport_contains_target_witness :
  xPx (computeViewTransform (Some front_segment) 1920 1080)
  <= xNorm (targetOf front_segment) * 1920
  <= xPx (computeViewTransform (Some front_segment) 1920 1080)
     + 1920 / scale (computeViewTransform (Some front_segment) 1920 1080).
Proof.
  refine (proj1 (viewport_contains_target front_segment 1920 1080 _ _ _ _));
    try split; vm_compute; discriminate.
Defined.

(** ** Which segment is active: preview and export *)

Lemma firstInWindow_here (head : ZoomSegment) (rest : list ZoomSegment) (env : Env) :
  inWindow head env -> firstInWindow (head :: rest) env head.
Proof.
  intros Hin. exists 0%nat. split; [reflexivity | split; [exact Hin |]].
  intros j earlier Hj. lia.
Qed.

Lemma firstInWindow_later (head : ZoomSegment) (rest : list ZoomSegment) (env : Env)
  (segment : ZoomSegment) :
  ~ inWindow head env -> firstInWindow rest env segment ->
  firstInWindow (head :: rest) env segment.
Proof.
  intros Hout [i [Hnth [Hin Hfirst]]]. exists (S i).
  split; [exact Hnth | split; [exact Hin |]].
  intros [| j] earlier Hj Hearlier.
  - injection Hearlier as <-. exact Hout.
  - apply (Hfirst j); [lia | exact Hearlier].
Qed.

Lemma coversTime_inWindow (zoom : ZoomSegment) (env : Env) :
  wholeMs zoom -> disabled zoom = false ->
  (coversTime (env_t env * 1000) zoom = true <-> inWindow zoom env).
Proof.
  intros [Hs He] Hen. unfold coversTime, inWindow. rewrite Hen, Hs, He. cbn [negb andb].
  rewrite andb_true_iff, !Qle_bool_iff. reflexivity.
Qed.

(** X15: on a zoom list whose enabled segments all have level above 1 and
    whole-millisecond bounds, the segment [getZoomAtTime] selects for the
    preview at a frame time is the segment whose values the export
    expressions take there, and when it selects none, no window of the
    export contains the time. *)
Theorem preview_and_export_select_alike :
  forall (zooms : list ZoomSegment) (env : Env),
    (forall zoom, In zoom zooms -> disabled zoom = false ->
                  1 < level zoom /\ wholeMs zoom) ->
    match getZoomAtTime zooms (env_t env * 1000) with
    | Some zoom => firstInWindow (filter isActiveZoom zooms) env zoom
    | None => forall zoom, In zoom (filter isActiveZoom zooms) -> ~ inWindow zoom env
    end.
Proof.
  intros zooms env. unfold getZoomAtTime.
  change (fun zoom : ZoomSegment =>
            negb (disabled zoom) && Qle_bool (startMs zoom) (env_t env * 1000)
            && Qle_bool (env_t env * 1000) (endMs zoom))
    with (coversTime (env_t env * 1000)).
  induction zooms as [| head rest IH]; intros Hall.
  - intros zoom [].
  - assert (Hrest : forall zoom, In zoom rest -> disabled zoom = false ->
                                 1 < level zoom /\ wholeMs zoom).
    { intros zoom Hin. apply Hall. now right. }
    specialize (IH Hrest). cbn [find filter].
    destruct (disabled head) eqn:Hdis.
    + assert (Hcov : coversTime (env_t env * 1000) head = false)
        by (unfold coversTime; now rewrite Hdis).
      assert (Hact : isActiveZoom head = false)
        by (unfold isActiveZoom; now rewrite Hdis).
      rewrite Hcov, Hact. exact IH.
    + destruct (Hall head (or_introl eq_refl) Hdis) as [Hlevel Hwhole].
      assert (Hact : isActiveZoom head = true).
      { unfold isActiveZoom. rewrite Hdis. cbn [negb andb].
        destruct (Qle_bool (level head) 1) eqn:Hle; [| reflexivity].
        apply Qle_bool_iff in Hle. lra. }
      rewrite Hact.
      pose proof (coversTime_inWindow head env Hwhole Hdis) as Hiff.
      destruct (coversTime (env_t env * 1000) head) eqn:Hcov.
      * apply firstInWindow_here. now apply Hiff.
      * assert (Hout : ~ inWindow head env).
        { intro Hin. apply Hiff in Hin. discriminate. }
        destruct (find (coversTime (env_t env * 1000)) rest) as [zoom |].
        -- now apply firstInWindow_later.
        -- intros zoom [<- | Hin]; [exact Hout | now apply IH].
Qed.

Lemma preview_and_export_select_alike_witness :
  firstInWindow (filter isActiveZoom [front_segment; back_segment]) mid_env front_segment.
Proof.
  refine (preview_and_export_select_alike [front_segment; back_segment] mid_env _).
  intros zoom [<- | [<- | []]] _; (split; [vm_compute; reflexivity |]);
    split; vm_compute; reflexivity.
Defined.

(** ** Small helpers of the editor engine *)

(** X16: [normalizeRange] returns its two arguments in ascending order,
    and normalising the result again changes nothing. *)
Theorem normalizeRange_orders :
  forall (a b : Q),
    let r := normalizeRange a b in
    range_startMs r <= range_endMs r
    /\ (r = mkRange a b \/ r = mkRange b a)
    /\ normalizeRange (range_startMs r) (range_endMs r) = r.
Proof.
  intros a b r. subst r. unfold normalizeRange.
  destruct (Qle_bool a b) eqn:Hab; cbn [range_startMs range_endMs].
  - rewrite Hab. apply Qle_bool_iff in Hab. repeat split; [exact Hab | now left].
  - apply Qle_bool_false in Hab.
    assert (Hba : Qle_bool b a = true) by (apply Qle_bool_iff; lra).
    rewrite Hba. repeat split; [lra | now right].
Qed.

(** X17: whatever its arguments, [createInstantZoom] yields an enabled
    instant segment of 800 ms with level in [1,4] and target in the unit
    square, and the view transform of that segment has exactly its level
    as scale. *)
Theorem createInstantZoom_valid :
  forall (uuid : string) (start lvl : Q) (x y : option Q) (frameWidth frameHeight : Q),
    let zoom := createInstantZoom uuid start lvl x y in
    endMs zoom - startMs zoom == 800
    /\ 1 <= level zoom <= 4
    /\ 0 <= xNorm (targetOf zoom) <= 1
    /\ 0 <= yNorm (targetOf zoom) <= 1
    /\ disabled zoom = false
    /\ scale (computeViewTransform (Some zoom) frameWidth frameHeight) == level zoom.
Proof.
  intros uuid start lvl x y W H zoom. subst zoom.
  cbn [createInstantZoom startMs endMs level targetOf manualTarget xNorm yNorm disabled
       computeViewTransform scale].
  pose proof (clamp_range lvl 1 4 ltac:(lra)) as Hl.
  split; [ring | split; [exact Hl | split; [| split; [| split; [reflexivity |]]]]].
  - apply clamp_range. lra.
  - apply clamp_range. lra.
  - unfold clamp at 1. rewrite Q.max_l by apply Hl. apply Q.min_l, Hl.
Qed.

Lemma Math_round_close (x : Q) : Qabs (inject_Z (JS.Math_round x) - x) <= 1 # 2.
Proof.
  unfold JS.Math_round.
  pose proof (Qfloor_le (x + (1 # 2))) as Hlo.
  pose proof (Qlt_floor (x + (1 # 2))) as Hhi.
  rewrite inject_Z_plus in Hhi. change (inject_Z 1) with 1 in Hhi.
  set (n := inject_Z (Qfloor (x + (1 # 2)))) in *. clearbody n.
  apply Qabs_Qle_condition. split; lra.
Qed.

(** X18: for a non-zero pixels-per-second and a positive snap step, the
    snapped time is a whole multiple of the step and is within half a
    step of the raw time [px / pixelsPerSecond * 1000]. *)
Theorem computeSnappedTime_snaps :
  forall (px pixelsPerSecond snapMs : Q),
    ~ pixelsPerSecond == 0 ->
    0 < snapMs ->
    let snapped := computeSnappedTime px pixelsPerSecond (Some snapMs) in
    (exists k : Z, snapped == inject_Z k * snapMs)
    /\ Qabs (snapped - px / pixelsPerSecond * 1000) <= snapMs / 2.
Proof.
  intros px pps snap _ Hsnap snapped. subst snapped.
  unfold computeSnappedTime. cbn [or_default].
  set (raw := px / pps * 1000).
  split; [eexists; reflexivity |].
  pose proof (Math_round_close (raw / snap)) as Hclose.
  apply Qabs_Qle_condition in Hclose as [Hlo Hhi].
  set (n := inject_Z (JS.Math_round (raw / snap))) in *. clearbody n.
  assert (Hraw : raw == raw / snap * snap) by (field; lra).
  set (q := raw / snap) in *. clearbody q.
  assert (Hhalf : snap / 2 == snap * (1 # 2)) by field.
  rewrite Hhalf. apply Qabs_Qle_condition. rewrite Hraw. split; nra.
Qed.

Lemma computeSnappedTime_snaps_witness :
  Qabs (computeSnappedTime 130 100 (Some 100) - 130 / 100 * 1000) <= 100 / 2.
Proof.
  refine (proj2 (computeSnappedTime_snaps 130 100 100 _ _)); vm_compute;
    first [discriminate | reflexivity].
Defined.

Section SortByStart.

Variable T : Type.
Variable startOf : T -> Q.

Lemma insert_by_start_permutation (segment : T) (sorted : list T) :
  Permutation (insert_by_start startOf segment sorted) (segment :: sorted).
Proof.
  induction sorted as [| other rest IH]; cbn [insert_by_start].
  - apply Permutation_refl.
  - destruct (Qle_bool (startOf segment) (startOf other)).
    + apply Permutation_refl.
    + apply perm_trans with (other :: segment :: rest);
        [now apply perm_skip | apply perm_swap].
Qed.

Lemma insert_by_start_sorted (segment : T) (sorted : list T) :
  StronglySorted (startsNoLater startOf) sorted ->
  StronglySorted (startsNoLater startOf) (insert_by_start startOf segment sorted).
Proof.
  induction 1 as [| other rest Hrest IH Hother]; cbn [insert_by_start].
  - repeat constructor.
  - destruct (Qle_bool (startOf segment) (startOf other)) eqn:Hle.
    + apply Qle_bool_iff in Hle. constructor; [now constructor |].
      constructor; [exact Hle |].
      rewrite Forall_forall in *. intros x Hx. unfold startsNoLater in *.
      specialize (Hother x Hx). lra.
    + apply Qle_bool_false in Hle. constructor; [exact IH |].
      rewrite Forall_forall in *. intros x Hx.
      apply (Permutation_in _ (insert_by_start_permutation segment rest)) in Hx.
      destruct Hx as [<- | Hx]; [unfold startsNoLater; lra | now apply Hother].
Qed.

Lemma sortByStart_sorted (segments : list T) :
  StronglySorted (startsNoLater startOf) (sortByStart startOf segments).
Proof.
  induction segments; cbn; [constructor | now apply insert_by_start_sorted].
Qed.

Lemma filter_insert_tied (k : Q) (segment : T) (sorted : list T) :
  StronglySorted (startsNoLater startOf) sorted ->
  Qeq_bool (startOf segment) k = true ->
  filter (fun x => Qeq_bool (startOf x) k) (insert_by_start startOf segment sorted)
  = segment :: filter (fun x => Qeq_bool (startOf x) k) sorted.
Proof.
  intros Hsorted Hk. induction Hsorted as [| other rest Hrest IH Hother];
    cbn [insert_by_start filter].
  - now rewrite Hk.
  - destruct (Qle_bool (startOf segment) (startOf other)) eqn:Hle; cbn [filter].
    + now rewrite Hk.
    + apply Qle_bool_false in Hle. apply Qeq_bool_iff in Hk.
      assert (Ho : Qeq_bool (startOf other) k = false).
      { destruct (Qeq_bool (startOf other) k) eqn:E; [| reflexivity].
        apply Qeq_bool_iff in E. lra. }
      rewrite Ho. exact IH.
Qed.

Lemma filter_insert_untied (k : Q) (segment : T) (sorted : list T) :
  Qeq_bool (startOf segment) k = false ->
  filter (fun x => Qeq_bool (startOf x) k) (insert_by_start startOf segment sorted)
  = filter (fun x => Qeq_bool (startOf x) k) sorted.
Proof.
  intros Hk. induction sorted as [| other rest IH]; cbn [insert_by_start filter].
  - now rewrite Hk.
  - destruct (Qle_bool (startOf segment) (startOf other)); cbn [filter].
    + now rewrite Hk.
    + now rewrite IH.
Qed.

(** X19: [sortByStart] returns a rearrangement of its input in ascending
    order of [startMs], and segments that start at the same time keep the
    order they had in the input. *)
Theorem sortByStart_stable_sort :
  forall (segments : list T),
    Permutation (sortByStart startOf segments) segments
    /\ StronglySorted (startsNoLater startOf) (sortByStart startOf segments)
    /\ forall k : Q,
         filter (fun x => Qeq_bool (startOf x) k) (sortByStart startOf segments)
         = filter (fun x => Qeq_bool (startOf x) k) segments.
Proof.
  intros segments. split; [| split].
  - induction segments as [| s rest IH]; cbn [sortByStart fold_right].
    + constructor.
    + apply perm_trans with (s :: sortByStart startOf rest);
        [apply insert_by_start_permutation | now apply perm_skip].
  - apply sortByStart_sorted.
  - intros k. induction segments as [| s rest IH]; cbn [sortByStart fold_right filter].
    + reflexivity.
    + fold (sortByStart startOf rest). destruct (Qeq_bool (startOf s) k) eqn:Hk.
      * rewrite filter_insert_tied by (try apply sortByStart_sorted; exact Hk).
        now rewrite IH.
      * rewrite filter_insert_untied by exact Hk. exact IH.
Qed.

End SortByStart.

Lemma removed_accumulates (cuts : list MsRange) (acc : Q) :
  acc <= fold_left (fun acc cut => acc + Qmax 0 (range_endMs cut - range_startMs cut))
                   cuts acc.
Proof.
  revert acc. induction cuts as [| cut rest IH]; intros acc; cbn [fold_left].
  - lra.
  - apply Qle_trans with (acc + Qmax 0 (range_endMs cut - range_startMs cut));
      [| apply IH].
    pose proof (Q.le_max_l 0 (range_endMs cut - range_startMs cut)). lra.
Qed.

(** X20: the duration left after cuts is at least 1 ms and never more
    than the larger of 1 and the full duration; one more cut never makes
    it longer, and a cut whose end is not after its start changes
    nothing. *)
Theorem cropDurationByCuts_bounds :
  forall (durationMs : Q) (cuts : list MsRange),
    1 <= cropDurationByCuts durationMs cuts
    /\ cropDurationByCuts durationMs cuts <= Qmax 1 durationMs
    /\ forall cut : MsRange,
         cropDurationByCuts durationMs (cuts ++ [cut]) <= cropDurationByCuts durationMs cuts
         /\ (range_endMs cut <= range_startMs cut ->
             cropDurationByCuts durationMs (cuts ++ [cut])
             == cropDurationByCuts durationMs cuts).
Proof.
  intros d cuts. unfold cropDurationByCuts.
  pose proof (removed_accumulates cuts 0) as Hremoved.
  set (removed := fold_left _ cuts 0) in *.
  split; [apply Q.le_max_l | split].
  - apply Q.max_le_compat_l. lra.
  - intros cut. rewrite fold_left_app. cbn [fold_left]. fold removed.
    pose proof (Q.le_max_l 0 (range_endMs cut - range_startMs cut)) as Hcut.
    split.
    + apply Q.max_le_compat_l. lra.
    + intros Hinverted.
      rewrite (Q.max_l 0 (range_endMs cut - range_startMs cut)) by lra.
      setoid_replace (removed + 0) with removed by ring. reflexivity.
Qed.

(** ** Auto-zoom segmentation, continued *)

Lemma insert_by_atMs_length (e : RecordingEvent) (l : list RecordingEvent) :
  length (insert_by_atMs e l) = S (length l).
Proof.
  induction l as [| o l IH]; cbn [insert_by_atMs]; [reflexivity |].
  destruct (Qle_bool (atMs e) (atMs o)); cbn [length]; [reflexivity | now rewrite IH].
Qed.

Lemma sort_by_atMs_In (events : list RecordingEvent) (e : RecordingEvent) :
  In e (sort_by_atMs events) <-> In e events.
Proof.
  induction events as [| x rest IH]; cbn [sort_by_atMs fold_right]; [reflexivity |].
  fold (sort_by_atMs rest). rewrite insert_by_atMs_In, IH. cbn. intuition.
Qed.

Lemma merge_from_length (o : AutoZoomOptions) (rest : list ZoomSegment) :
  forall last, (1 <= length (merge_from o last rest) <= S (length rest))%nat.
Proof.
  induction rest as [| s rest IH]; intros last; cbn [merge_from].
  - cbn. lia.
  - destruct (mergeable o last s).
    + specialize (IH (absorb last s)). cbn [length]. lia.
    + specialize (IH s). cbn [length]. lia.
Qed.

Lemma merge_from_shape (o : AutoZoomOptions) (rest : list ZoomSegment) :
  forall last,
    autoZoomShape o last -> Forall (autoZoomShape o) rest ->
    Forall (autoZoomShape o) (merge_from o last rest).
Proof.
  induction rest as [| s rest IH]; intros last Hlast Hrest; cbn [merge_from].
  - now constructor.
  - inversion Hrest as [| ? ? Hs Hrest']; subst.
    destruct (mergeable o last s).
    + apply IH; [| exact Hrest'].
      destruct Hlast as [H1 [H2 [H3 [H4 [t Ht]]]]], Hs as [_ [_ [_ [_ [t' Ht']]]]].
      unfold autoZoomShape. cbn [absorb level mode instant disabled manualTarget].
      rewrite Ht'. repeat split; try assumption. now exists t'.
    + constructor; [exact Hlast | now apply IH].
Qed.

Lemma mapRaw_shape uuid d o events : forall n,
  Forall (autoZoomShape o) (mapRaw uuid n d o events).
Proof.
  induction events as [| e events IH]; intros n; cbn [mapRaw]; constructor.
  - unfold autoZoomShape. cbn. repeat split. eexists. reflexivity.
  - apply IH.
Qed.

(** X21: [buildAutoZooms] returns at most one segment per participating
    event, and none exactly when no event participates; every segment is
    an enabled, non-instant [auto] segment at the default zoom level with
    a target. *)
Theorem buildAutoZooms_size_and_shape :
  forall (randomUUID : nat -> string) (events : list RecordingEvent)
         (durationMs : Q) (options : PartialAutoZoomOptions),
    let used := filter (fun event => shouldUseEvent event (mergeOptions options)) events in
    let merged := buildAutoZooms randomUUID events durationMs options in
    (length merged <= length used)%nat
    /\ (merged = [] <-> used = [])
    /\ Forall (autoZoomShape (mergeOptions options)) merged.
Proof.
  intros uuid events d options used merged. subst merged.
  rewrite buildAutoZooms_merge. rewrite filter_sort. fold used.
  pose proof (mapRaw_length uuid 0 d (mergeOptions options) (sort_by_atMs used)) as Hlen.
  pose proof (mapRaw_shape uuid d (mergeOptions options) (sort_by_atMs used) 0) as Hshape.
  assert (Hsort : length (sort_by_atMs used) = length used).
  { clear. induction used as [| e rest IH]; cbn [sort_by_atMs fold_right length];
      [reflexivity |]. fold (sort_by_atMs rest). now rewrite insert_by_atMs_length, IH. }
  rewrite Hsort in Hlen.
  destruct (mapRaw uuid 0 d (mergeOptions options) (sort_by_atMs used)) as [| first rest].
  - cbn [length] in Hlen. destruct used; [| discriminate].
    split; [cbn; lia | split; [tauto | constructor]].
  - pose proof (merge_from_length (mergeOptions options) rest first) as Hm.
    cbn [length] in Hlen. split; [lia | split].
    + split.
      * intros E. rewrite E in Hm. cbn in Hm. lia.
      * intros E. rewrite E in Hlen. discriminate.
    + inversion Hshape; subst. now apply merge_from_shape.
Qed.

Lemma signal_eqb_eq (a b : AutoZoomSignal) : signal_eqb a b = true -> a = b.
Proof. destruct a, b; cbn; intros H; try reflexivity; discriminate. Qed.

Lemma sourceSignal_eqb_eq (a b : option AutoZoomSignal) :
  sourceSignal_eqb a b = true -> a = b.
Proof.
  destruct a, b; cbn; intros H; try reflexivity; try discriminate.
  f_equal. now apply signal_eqb_eq.
Qed.

Lemma merge_from_head_spans (o : AutoZoomOptions) (rest : list ZoomSegment) :
  forall last,
  exists head tail,
    merge_from o last rest = head :: tail
    /\ startMs head = startMs last
    /\ sourceSignal head = sourceSignal last
    /\ endMs last <= endMs head.
Proof.
  induction rest as [| s rest IH]; intros last; cbn [merge_from].
  - exists last, []. repeat split. lra.
  - destruct (mergeable o last s).
    + destruct (IH (absorb last s)) as [head [tail [E [Hs [Hsig Hend]]]]].
      exists head, tail. cbn [absorb startMs sourceSignal endMs] in *.
      repeat split; try assumption.
      apply Qle_trans with (Qmax (endMs last) (endMs s)); [apply Q.le_max_l | exact Hend].
    + exists last, (merge_from o s rest). repeat split. lra.
Qed.

Lemma merge_from_spans (o : AutoZoomOptions) (rest : list ZoomSegment) :
  forall last r,
    StronglySorted startsNotLater (last :: rest) ->
    In r (last :: rest) ->
    exists s, In s (merge_from o last rest) /\ spans s r.
Proof.
  induction rest as [| x rest IH]; intros last r Hsorted Hin.
  - destruct Hin as [<- | []]. exists last. split; [now left |].
    repeat split; lra.
  - cbn [merge_from].
    apply StronglySorted_inv in Hsorted as [Hrest Hlast].
    apply StronglySorted_inv in Hrest as [Hrest' Hx].
    inversion Hlast as [| ? ? Hlx Hlast']; subst.
    destruct (mergeable o last x) eqn:Hm.
    + assert (Hsorted' : StronglySorted startsNotLater (absorb last x :: rest))
        by (constructor; [exact Hrest' | exact Hlast']).
      destruct (merge_from_head_spans o rest (absorb last x))
        as [head [tail [E [Hs [Hsig Hend]]]]].
      cbn [absorb startMs sourceSignal endMs] in Hs, Hsig, Hend.
      destruct Hin as [<- | [<- | Hin]].
      * exists head. rewrite E. split; [now left |].
        repeat split; [exact Hsig | rewrite Hs; lra |].
        apply Qle_trans with (Qmax (endMs last) (endMs x)); [apply Q.le_max_l | exact Hend].
      * exists head. rewrite E. split; [now left |].
        unfold mergeable in Hm. apply andb_true_iff in Hm as [Hsame _].
        apply sourceSignal_eqb_eq in Hsame.
        repeat split; [congruence | rewrite Hs; exact Hlx |].
        apply Qle_trans with (Qmax (endMs last) (endMs x)); [apply Q.le_max_r | exact Hend].
      * apply (IH (absorb last x) r Hsorted'). now right.
    + destruct Hin as [<- | Hin].
      * exists last. split; [now left |]. repeat split; lra.
      * destruct (IH x r (SSorted_cons x Hrest' Hx) Hin) as [s [Hs Hspans]].
        exists s. split; [now right | exact Hspans].
Qed.

Lemma mapRaw_In uuid d o (events : list RecordingEvent) (e : RecordingEvent) :
  forall n, In e events -> exists k, In (toRawSegment d o (uuid k) e) (mapRaw uuid n d o events).
Proof.
  induction events as [| x rest IH]; intros n Hin; [contradiction |].
  cbn [mapRaw]. destruct Hin as [<- | Hin].
  - exists n. now left.
  - destruct (IH (S n) Hin) as [k Hk]. exists k. now right.
Qed.

(** X22: with a non-negative [segmentMs], every participating event whose
    time lies within [0, durationMs] falls inside one of the returned
    segments, and that segment has the event's signal. *)
Theorem buildAutoZooms_covers_events :
  forall (randomUUID : nat -> string) (events : list RecordingEvent)
         (durationMs : Q) (options : PartialAutoZoomOptions) (event : RecordingEvent),
    0 <= segmentMs (mergeOptions options) ->
    In event events ->
    shouldUseEvent event (mergeOptions options) = true ->
    0 <= atMs event <= durationMs ->
    exists segment,
      In segment (buildAutoZooms randomUUID events durationMs options)
      /\ sourceSignal segment = Some (toSignal (kind event))
      /\ startMs segment <= atMs event <= endMs segment.
Proof.
  intros uuid events d options e Hseg Hin Huse [H0 Hd].
  rewrite buildAutoZooms_merge.
  set (o := mergeOptions options) in *.
  set (used := filter (fun event => shouldUseEvent event o) (sort_by_atMs events)).
  assert (Hused : In e used).
  { apply filter_In. split; [now apply sort_by_atMs_In | exact Huse]. }
  destruct (mapRaw_In uuid d o used e 0 Hused) as [k Hraw].
  assert (Hsorted : StronglySorted startsNotLater (mapRaw uuid 0 d o used)).
  { apply mapRaw_sorted, filter_sorted, sort_by_atMs_sorted. }
  destruct (mapRaw uuid 0 d o used) as [| first rest]; [contradiction |].
  destruct (merge_from_spans o rest first _ Hsorted Hraw) as [s [Hs [Hsig [Hstart Hend]]]].
  exists s. split; [exact Hs | split; [exact Hsig |]].
  cbn [toRawSegment startMs endMs] in Hstart, Hend.
  assert (Hlo : Qmax 0 (atMs e - 120) <= atMs e) by (apply Q.max_lub; lra).
  assert (Hhi : atMs e <= Qmin d (atMs e + segmentMs o)) by (apply Q.min_glb; lra).
  split; lra.
Qed.

Lemma buildAutoZooms_covers_events_witness :
  exists segment,
    In segment (buildAutoZooms sampleUUID [clickAt "a" 1000; clickAt "b" 2000] 10000 noOptions)
    /\ sourceSignal segment = Some sig_click
    /\ startMs segment <= 2000 <= endMs segment.
Proof.
  apply (buildAutoZooms_covers_events sampleUUID [clickAt "a" 1000; clickAt "b" 2000]
           10000 noOptions (clickAt "b" 2000)).
  - vm_compute. discriminate.
  - right. now left.
  - reflexivity.
  - split; vm_compute; discriminate.
Defined.

(** ** Cursor path helpers *)

Lemma smoothRest_step (smoothing : Q) (prev curr next : CursorPathPoint)
  (later : list CursorPathPoint) :
  smoothRest smoothing prev (curr :: next :: later)
  = {| tMs := tMs curr;
       pt_xNorm := pt_xNorm prev + (pt_xNorm curr - pt_xNorm prev) * (1 - smoothing);
       pt_yNorm := pt_yNorm prev + (pt_yNorm curr - pt_yNorm prev) * (1 - smoothing) |}
    :: smoothRest smoothing
         {| tMs := tMs curr;
            pt_xNorm := pt_xNorm prev + (pt_xNorm curr - pt_xNorm prev) * (1 - smoothing);
            pt_yNorm := pt_yNorm prev + (pt_yNorm curr - pt_yNorm prev) * (1 - smoothing) |}
         (next :: later).
Proof. reflexivity. Qed.

Lemma smoothRest_shape (smoothing : Q) (rest : list CursorPathPoint) :
  forall prev,
    length (smoothRest smoothing prev rest) = length rest
    /\ map tMs (smoothRest smoothing prev rest) = map tMs rest
    /\ forall d, last (smoothRest smoothing prev rest) d = last rest d.
Proof.
  induction rest as [| curr later IH]; intros prev.
  - repeat split.
  - destruct later as [| next later'].
    + repeat split.
    + rewrite smoothRest_step. set (smoothed := mkPoint _ _ _).
      destruct (IH smoothed) as [Hlen [Htimes Hlast]].
      split; [| split].
      * cbn [length] in *. now rewrite Hlen.
      * cbn [map] in *. now rewrite Htimes.
      * intros d. specialize (Hlast d).
        change (last (smoothed :: smoothRest smoothing smoothed (next :: later')) d)
          with (match smoothRest smoothing smoothed (next :: later') with
                | [] => smoothed
                | _ => last (smoothRest smoothing smoothed (next :: later')) d
                end).
        destruct (smoothRest smoothing smoothed (next :: later')) eqn:E;
          [cbn in Hlen; discriminate |].
        rewrite Hlast. reflexivity.
Qed.

(** X23: [smoothCursorPath] keeps the number of points, every time stamp,
    and the first and the last point as they are. *)
Theorem smoothCursorPath_keeps_shape :
  forall (points : list CursorPathPoint) (smoothing : option Q),
    let smoothed := smoothCursorPath points smoothing in
    length smoothed = length points
    /\ map tMs smoothed = map tMs points
    /\ hd_error smoothed = hd_error points
    /\ forall d, last smoothed d = last points d.
Proof.
  intros points smoothing smoothed. subst smoothed. unfold smoothCursorPath.
  destruct (length points <? 3)%nat; [repeat split |].
  destruct points as [| first rest]; [repeat split |].
  destruct (smoothRest_shape (or_default smoothing (22 # 100)) rest first)
    as [Hlen [Htimes Hlast]].
  split; [cbn [length]; now rewrite Hlen | split; [cbn [map]; now rewrite Htimes |]].
  split; [reflexivity |].
  intros d. specialize (Hlast d). destruct rest as [| second rest'].
  - reflexivity.
  - change (last (first :: second :: rest') d) with (last (second :: rest') d).
    rewrite <- Hlast.
    destruct (smoothRest (or_default smoothing (22 # 100)) first (second :: rest')) eqn:E;
      [cbn in Hlen; discriminate | reflexivity].
Qed.




Lemma keepMoves_idempotent (threshold : Q) (rest : list CursorPathPoint) :
  forall prev,
    keepMoves threshold prev (keepMoves threshold prev rest)
    = keepMoves threshold prev rest.
Proof.
  induction rest as [| curr later IH]; intros prev; cbn [keepMoves].
  - reflexivity.
  - destruct (movedEnough threshold prev curr) eqn:Hm.
    + cbn [keepMoves]. now rewrite Hm, IH.
    + apply IH.
Qed.

(** X25: removing shakes a second time, with the same threshold, changes
    nothing. *)
Theorem removeCursorShakes_idempotent :
  forall (points : list CursorPathPoint) (threshold : option Q),
    removeCursorShakes (removeCursorShakes points threshold) threshold
    = removeCursorShakes points threshold.
Proof.
  intros points threshold.
  set (th := or_default threshold (2 # 1000)).
  assert (Hkept : removeCursorShakes points threshold
                  = if (length points <? 2)%nat then points
                    else match points with
                         | [] => []
                         | first :: rest => first :: keepMoves th first rest
                         end) by reflexivity.
  rewrite Hkept. destruct (length points <? 2)%nat eqn:Hshort.
  - unfold removeCursorShakes. now rewrite Hshort.
  - destruct points as [| first rest]; [reflexivity |].
    unfold removeCursorShakes. fold th.
    destruct (length (first :: keepMoves th first rest) <? 2)%nat; [reflexivity |].
    now rewrite keepMoves_idempotent.
Qed.

Lemma keepMoves_subsequence (threshold : Q) (rest : list CursorPathPoint) :
  forall prev, Subsequence (keepMoves threshold prev rest) rest.
Proof.
  induction rest as [| curr later IH]; intros prev; cbn [keepMoves].
  - constructor.
  - destruct (movedEnough threshold prev curr); constructor; apply IH.
Qed.

Lemma keepMoves_chain (threshold : Q) (rest : list CursorPathPoint) :
  forall prev,
    Sorted (fun a b => movedEnough threshold a b = true)
           (prev :: keepMoves threshold prev rest).
Proof.
  induction rest as [| curr later IH]; intros prev; cbn [keepMoves].
  - repeat constructor.
  - destruct (movedEnough threshold prev curr) eqn:Hm.
    + constructor; [apply IH | now constructor].
    + apply IH.
Qed.

Lemma Subsequence_refl {A : Type} (l : list A) : Subsequence l l.
Proof. induction l; constructor; assumption. Qed.

(** X26: [removeCursorShakes] returns a selection of the input points in
    their order, starting with the first point, in which every point
    differs from the one before it by at least the threshold in x or
    in y. *)
Theorem removeCursorShakes_selects_moves :
  forall (points : list CursorPathPoint) (threshold : option Q),
    let kept := removeCursorShakes points threshold in
    Subsequence kept points
    /\ hd_error kept = hd_error points
    /\ forall front a b back,
         kept = front ++ a :: b :: back ->
         movedEnough (or_default threshold (2 # 1000)) a b = true.
Proof.
  intros points threshold kept. subst kept. unfold removeCursorShakes.
  destruct (length points <? 2)%nat eqn:Hshort.
  - split; [apply Subsequence_refl | split; [reflexivity |]].
    intros front a b back E. apply Nat.ltb_lt in Hshort. rewrite E in Hshort.
    rewrite length_app in Hshort. cbn [length] in Hshort. lia.
  - destruct points as [| first rest]; [discriminate |].
    split; [constructor; apply keepMoves_subsequence | split; [reflexivity |]].
    intros front a b back E.
    exact (Sorted_consecutive (keepMoves_chain _ rest first) front a b back E).
Qed.

(** ** The stderr listener *)

Lemma splitLines_plain (line : string) :
  hasNoLineFeed line = true -> splitLines line = [line].
Proof.
  unfold hasNoLineFeed. induction line as [| c rest IH]; cbn [splitLines string_forall].
  - reflexivity.
  - intros H. apply andb_true_iff in H as [Hc Hrest]. apply negb_true_iff in Hc.
    rewrite Hc, (IH Hrest).
    assert (Hnext : startsWithLineFeed rest = false).
    { destruct rest as [| x rest']; [reflexivity |]. cbn [string_forall] in Hrest.
      apply andb_true_iff in Hrest as [Hx _]. now apply negb_true_iff in Hx. }
    rewrite Hnext, andb_false_r. reflexivity.
Qed.

Lemma splitLines_first (line rest : string) :
  hasNoLineFeed line = true -> endsWithCarriageReturn line = false ->
  splitLines (line ++ newline ++ rest) = line :: splitLines rest.
Proof.
  unfold hasNoLineFeed, endsWithCarriageReturn.
  induction line as [| c tail IH]; intros Hlf Hcr.
  - reflexivity.
  - cbn [string_forall] in Hlf. apply andb_true_iff in Hlf as [Hc Htail].
    apply negb_true_iff in Hc. cbn [append splitLines]. rewrite Hc.
    destruct tail as [| x tail'].
    + cbn [lastChar] in Hcr. rewrite Hcr. cbn [andb append].
      change (splitLines (newline ++ rest)) with (EmptyString :: splitLines rest).
      reflexivity.
    + assert (Hnext : startsWithLineFeed (String x tail' ++ newline ++ rest) = false).
      { cbn [string_forall] in Htail. apply andb_true_iff in Htail as [Hx _].
        now apply negb_true_iff in Hx. }
      rewrite Hnext, andb_false_r. rewrite (IH Htail Hcr). reflexivity.
Qed.

(** X27: a chunk made of plain lines (non-empty, without line feed, not
    ending in a carriage return) joined by line feeds is split back into
    exactly those lines. *)
Theorem chunkLines_round_trip :
  forall (lines : list string),
    Forall plainLine lines ->
    chunkLines (JS.join newline lines) = lines.
Proof.
  intros lines Hlines. unfold chunkLines.
  induction Hlines as [| line rest [Hne [Hlf Hcr]] Hrest IH].
  - reflexivity.
  - destruct rest as [| next rest'].
    + cbn [JS.join]. rewrite (splitLines_plain _ Hlf). cbn [filter]. now rewrite Hne.
    + change (JS.join newline (line :: next :: rest'))
        with (line ++ newline ++ JS.join newline (next :: rest'))%string.
      rewrite (splitLines_first _ _ Hlf Hcr). cbn [filter]. now rewrite Hne, IH.
Qed.

Lemma chunkLines_round_trip_witness :
  chunkLines (JS.join newline ["frame=1"; "frame=2"]%string) = ["frame=1"; "frame=2"]%string.
Proof.
  apply chunkLines_round_trip. repeat constructor.
Defined.

Lemma fold_onLine (lines : list string) :
  forall state,
    stderrTail (fold_left onLine lines state) = fold_left pushTail lines (stderrTail state)
    /\ reported (fold_left onLine lines state) = reported state ++ progressReports lines.
Proof.
  induction lines as [| line rest IH]; intros state; cbn [fold_left].
  - split; [reflexivity | now rewrite app_nil_r].
  - destruct (IH (onLine state line)) as [Htail Hrep]. rewrite Htail, Hrep.
    split; [reflexivity |].
    unfold progressReports. cbn [onLine reported flat_map].
    destruct (progressOf line); [now rewrite <- app_assoc | reflexivity].
Qed.

Lemma fold_onData (chunks : list string) :
  forall state,
    fold_left onData chunks state
    = fold_left onLine (concat (map chunkLines chunks)) state.
Proof.
  induction chunks as [| chunk rest IH]; intros state; cbn [fold_left map concat].
  - reflexivity.
  - rewrite fold_left_app. apply IH.
Qed.

Lemma expectText_app (text s rest : string) :
  expectText text s = Some rest -> s = (text ++ rest)%string.
Proof.
  revert s. induction text as [| c text IH]; intros s; cbn [expectText].
  - now intros [= ->].
  - destruct s as [| x s']; cbn [expectChar]; [discriminate |].
    destruct (Ascii.eqb x c) eqn:Hx; [| discriminate].
    apply Ascii.eqb_eq in Hx. subst x. intros H. cbn. now rewrite (IH _ H).
Qed.

Lemma execTime_mentions (line : string) (groups : string * string * string) :
  execTime line = Some groups -> JS.mentions line "time=".
Proof.
  induction line as [| c rest IH]; cbn [execTime].
  - destruct (matchTimeAt EmptyString) eqn:Hm; [| discriminate].
    unfold matchTimeAt in Hm. cbn in Hm. discriminate.
  - destruct (matchTimeAt (String c rest)) eqn:Hm.
    + intros _. unfold matchTimeAt in Hm.
      destruct (expectText "time=" (String c rest)) as [after |] eqn:He; [| discriminate].
      apply expectText_app in He. exists EmptyString, after. exact He.
    + intros H. destruct (IH H) as [before [after E]].
      exists (String c before), after. cbn. now rewrite E.
Qed.

Lemma progressOf_sound (line : string) (progress : RenderProgress) :
  progressOf line = Some progress ->
  rawLine progress = line /\ 0 <= ratio progress <= 1 /\ JS.mentions line "time=".
Proof.
  unfold progressOf. destruct (execTime line) as [[[h m] s] |] eqn:He; [| discriminate].
  intros [= <-]. cbn [rawLine ratio]. split; [reflexivity | split].
  - split; [apply Q.le_max_l | apply Q.max_lub; [lra | apply Q.le_min_r]].
  - exact (execTime_mentions _ _ He).
Qed.

(** X28: after any sequence of stderr chunks, the diagnostic buffer holds
    the last 30 of the chunks' non-empty lines, and [onProgress] has been
    called once for each line that matches, in order; every reported
    ratio lies in [0,1] and comes with a line that contains ["time="]. *)
Theorem listener_after_chunks :
  forall (chunks : list string),
    let lines := concat (map chunkLines chunks) in
    let state := fold_left onData chunks idleListener in
    stderrTail state = skipn (length lines - 30) lines
    /\ reported state = progressReports lines
    /\ forall progress,
         In progress (reported state) ->
         In (rawLine progress) lines
         /\ 0 <= ratio progress <= 1
         /\ JS.mentions (rawLine progress) "time=".
Proof.
  intros chunks lines state. subst state. rewrite fold_onData. fold lines.
  destruct (fold_onLine lines idleListener) as [Htail Hrep].
  rewrite Htail, Hrep. cbn [idleListener stderrTail reported app].
  split; [| split; [reflexivity |]].
  - pose proof (fold_pushTail lines [] ltac:(cbn; lia)) as H. exact H.
  - intros progress Hin. unfold progressReports in Hin.
    apply in_flat_map in Hin as [line [Hline Hp]].
    destruct (progressOf line) as [p |] eqn:E; [| contradiction].
    destruct Hp as [<- | []].
    destruct (progressOf_sound _ _ E) as [Hraw [Hratio Hm]].
    rewrite Hraw. repeat split; try assumption; apply Hratio.
Qed.

Lemma string_app_nil (s : string) : (s ++ "")%string = s.
Proof. induction s as [| c s IH]; cbn; [reflexivity | now rewrite IH]. Qed.

Lemma takeDigits_app (digits rest : string) :
  string_forall isDigit digits = true -> startsWithDigit rest = false ->
  takeDigits (digits ++ rest) = (digits, rest).
Proof.
  intros Hd Hrest. induction digits as [| c digits IH]; cbn [append].
  - destruct rest as [| x rest']; cbn [takeDigits]; [reflexivity |].
    cbn [startsWithDigit] in Hrest. now rewrite Hrest.
  - cbn [string_forall] in Hd. apply andb_true_iff in Hd as [Hc Hd].
    cbn [takeDigits]. now rewrite Hc, (IH Hd).
Qed.

Lemma digitsThen_app (c : ascii) (digits rest : string) :
  allDigits digits -> isDigit c = false ->
  digitsThen c (digits ++ String c EmptyString ++ rest) = Some (digits, rest).
Proof.
  intros [Hne Hd] Hc. unfold digitsThen. cbn [append].
  rewrite (takeDigits_app digits (String c rest) Hd Hc).
  destruct digits; [discriminate |]. cbn [expectChar]. now rewrite Ascii.eqb_refl.
Qed.

Lemma expectText_prefix (text rest : string) :
  expectText text (text ++ rest) = Some rest.
Proof.
  induction text as [| c text IH]; cbn [append expectText expectChar]; [reflexivity |].
  now rewrite Ascii.eqb_refl.
Qed.

Lemma execTime_here (line : string) (groups : string * string * string) :
  matchTimeAt line = Some groups -> execTime line = Some groups.
Proof. intros H. destruct line; cbn [execTime]; now rewrite H. Qed.

Lemma execTime_skips (before rest : string) :
  string_forall (fun c => negb (isLetterT c)) before = true ->
  execTime (before ++ rest) = execTime rest.
Proof.
  induction before as [| c before IH]; cbn [string_forall append]; [reflexivity |].
  intros H. apply andb_true_iff in H as [Hc Hbefore]. apply negb_true_iff in Hc.
  cbn [execTime]. unfold matchTimeAt at 1. cbn [expectText expectChar].
  unfold isLetterT in Hc. rewrite Hc. now apply IH.
Qed.

Lemma decimalNumber_digits (digits : string) :
  allDigits digits -> decimalNumber digits = inject_Z (digitsNumber digits).
Proof.
  intros [_ Hd]. unfold decimalNumber.
  rewrite <- (string_app_nil digits) at 1.
  now rewrite (takeDigits_app digits EmptyString Hd eq_refl).
Qed.

Lemma decimalNumber_point (whole fraction : string) :
  allDigits whole ->
  decimalNumber (whole ++ "." ++ fraction)
  = inject_Z (digitsNumber whole)
    + inject_Z (digitsNumber fraction) / inject_Z (JS.pow10 (String.length fraction)).
Proof.
  intros [_ Hd]. unfold decimalNumber.
  now rewrite (takeDigits_app whole ("." ++ fraction) Hd eq_refl).
Qed.

(** X29: on a status line [before time=H:M:S.F after], where [before]
    has no letter t, [H], [M], [S], [F] are non-empty digit strings and
    [after] does not start with a digit, the reported ratio is the
    elapsed time [H*3600 + M*60 + S.F] seconds over one hour, capped to
    [0,1], and the raw line is the line. *)
Theorem progressOf_status_line :
  forall (before h m s f after : string),
    string_forall (fun c => negb (isLetterT c)) before = true ->
    allDigits h -> allDigits m -> allDigits s -> allDigits f ->
    startsWithDigit after = false ->
    let line := (before ++ "time=" ++ h ++ ":" ++ m ++ ":" ++ s ++ "." ++ f ++ after)%string in
    let totalSeconds :=
      inject_Z (digitsNumber h) * 3600 + inject_Z (digitsNumber m) * 60
      + (inject_Z (digitsNumber s)
         + inject_Z (digitsNumber f) / inject_Z (JS.pow10 (String.length f))) in
    progressOf line
    = Some {| ratio := Qmax 0 (Qmin (totalSeconds / 3600) 1); rawLine := line |}.
Proof.
  intros before h m s f after Hbefore Hh Hm Hs Hf Hafter line totalSeconds.
  assert (Hmatch : matchTimeAt ("time=" ++ h ++ ":" ++ m ++ ":" ++ s ++ "." ++ f ++ after)
                   = Some (h, m, (s ++ "." ++ f)%string)).
  { unfold matchTimeAt. rewrite expectText_prefix.
    rewrite (digitsThen_app ":" h _ Hh eq_refl).
    rewrite (digitsThen_app ":" m _ Hm eq_refl).
    rewrite (digitsThen_app "." s _ Hs eq_refl).
    destruct Hf as [Hne Hd]. rewrite (takeDigits_app f after Hd Hafter).
    destruct f; [discriminate | reflexivity]. }
  unfold progressOf. subst line. rewrite (execTime_skips before _ Hbefore).
  rewrite (execTime_here _ _ Hmatch).
  rewrite (decimalNumber_digits h Hh), (decimalNumber_digits m Hm),
    (decimalNumber_point s f Hs).
  reflexivity.
Qed.

Lemma progressOf_status_line_witness :
  progressOf "frame= 120 fps=30 q=28.0 size= 512kB time=00:30:00.50 bitrate=1048.6kbits/s"
  = Some {| ratio := Qmax 0 (Qmin ((inject_Z 0 * 3600 + inject_Z 30 * 60
                                    + (inject_Z 0 + inject_Z 50 / inject_Z 100)) / 3600) 1);
            rawLine :=
              "frame= 120 fps=30 q=28.0 size= 512kB time=00:30:00.50 bitrate=1048.6kbits/s" |}.
Proof.
  apply (progressOf_status_line "frame= 120 fps=30 q=28.0 size= 512kB " "00" "30" "00" "50"
           " bitrate=1048.6kbits/s");
    try reflexivity; split; reflexivity.
Defined.

(** ** Dragging a segment edge *)

(** X30: dragging an edge keeps the number, order and ids of the
    segments and leaves every segment with another id untouched; the
    dragged start never goes below 0 and the dragged end never beyond the
    duration; and the dragged segment is at least 100 ms long whenever
    there is room for that (its end is at least 100 for a start drag, its
    start plus 100 is within the duration for an end drag). *)
Theorem moveZoomBoundary_keeps_segments :
  forall (durationMs : Q) (zooms : list ZoomSegment) (id_ : string) (edge : Edge)
         (nextMs : Q),
    let moved := moveZoomBoundary durationMs zooms id_ edge nextMs in
    map id moved = map id zooms
    /\ forall (i : nat) (zoom : ZoomSegment),
         nth_error zooms i = Some zoom ->
         exists zoom',
           nth_error moved i = Some zoom'
           /\ (id zoom <> id_ -> zoom' = zoom)
           /\ (id zoom = id_ ->
               match edge with
               | edge_start =>
                   endMs zoom' = endMs zoom
                   /\ 0 <= startMs zoom'
                   /\ (100 <= endMs zoom -> 100 <= endMs zoom' - startMs zoom')
               | edge_end =>
                   startMs zoom' = startMs zoom
                   /\ endMs zoom' <= durationMs
                   /\ (startMs zoom + 100 <= durationMs ->
                       100 <= endMs zoom' - startMs zoom')
               end).
Proof.
  intros d zooms id_ edge nextMs moved. subst moved. unfold moveZoomBoundary. split.
  - rewrite map_map. apply map_ext. intros zoom. unfold moveBoundaryOf.
    destruct (negb (String.eqb (id zoom) id_)); [reflexivity |]. now destruct edge.
  - intros i zoom Hnth. exists (moveBoundaryOf d id_ edge nextMs zoom).
    split; [now apply map_nth_error | split].
    + intros Hne. unfold moveBoundaryOf. apply String.eqb_neq in Hne. now rewrite Hne.
    + intros Heq. unfold moveBoundaryOf. apply String.eqb_eq in Heq. rewrite Heq.
      cbn [negb]. destruct edge; cbn [startMs endMs].
      * split; [reflexivity | split; [apply Q.le_max_l |]].
        intros Hroom.
        assert (H : Qmax 0 (Qmin nextMs (endMs zoom - 100)) <= endMs zoom - 100).
        { apply Q.max_lub; [lra | apply Q.le_min_r]. }
        lra.
      * split; [reflexivity | split; [apply Q.le_min_l |]].
        intros Hroom.
        assert (H : startMs zoom + 100 <= Qmin d (Qmax nextMs (startMs zoom + 100))).
        { apply Q.min_glb; [exact Hroom | apply Q.le_max_r]. }
        lra.
Qed.

Lemma moveZoomBoundary_keeps_segments_witness :
  exists zoom',
    nth_error (moveZoomBoundary 5000 [front_segment; back_segment] "a" edge_start 990) 0
    = Some zoom'
    /\ 100 <= endMs zoom' - startMs zoom'.
Proof.
  destruct (proj2 (moveZoomBoundary_keeps_segments 5000 [front_segment; back_segment]
                     "a" edge_start 990) 0%nat front_segment eq_refl)
    as [zoom' [Hnth [_ Hmoved]]].
  exists zoom'. split; [exact Hnth |].
  apply (Hmoved eq_refl). vm_compute. discriminate.
Defined.

(** ** Concrete instances *)

Lemma buildEncoderAttempts_members_witness :
  In mpeg4 (buildEncoderAttempts [h264_qsv] h264_nvenc).
Proof.
  apply (proj2 (buildEncoderAttempts_members [h264_qsv] h264_nvenc mpeg4)).
  right. right. right. reflexivity.
Defined.


Lemma encoderAttemptsFor_sound_witness :
  exists chunks,
    sampleProbe = probe_close chunks
    /\ JS.mentions (collectStdout chunks) (encoderName h264_nvenc).
Proof.
  apply (proj1 (encoderAttemptsFor_sound sampleProbe hint_auto) h264_nvenc).
  - vm_compute. left. reflexivity.
  - reflexivity.
Defined.

Lemma listener_after_chunks_witness :
  0 <= ratio sampleProgress <= 1.
Proof.
  apply (proj2 (proj2 (listener_after_chunks sampleChunks)) sampleProgress).
  vm_compute. left. reflexivity.
Defined.

Lemma cropDurationByCuts_bounds_witness :
  cropDurationByCuts 1000 ([mkRange 100 300] ++ [mkRange 500 400])
  == cropDurationByCuts 1000 [mkRange 100 300].
Proof.
  apply (proj2 (proj2 (proj2 (cropDurationByCuts_bounds 1000 [mkRange 100 300]))
                  (mkRange 500 400))).
  vm_compute. discriminate.
Defined.

Lemma buildAutoZooms_size_and_shape_witness :
  buildAutoZooms sampleUUID [mkEvent "c" kind_cursor 10 None None] 1000 noOptions = [].
Proof.
  apply (proj2 (proj1 (proj2 (buildAutoZooms_size_and_shape sampleUUID
                                [mkEvent "c" kind_cursor 10 None None] 1000 noOptions)))).
  reflexivity.
Defined.

Lemma removeCursorShakes_selects_moves_witness :
  movedEnough (2 # 1000) (mkPoint 0 0 0) (mkPoint 10 1 (1 # 2)) = true.
Proof.
  apply (proj2 (proj2 (removeCursorShakes_selects_moves samplePath None))
           [] (mkPoint 0 0 0) (mkPoint 10 1 (1 # 2))
           [mkPoint 20 (1 # 2) 1; mkPoint 30 1 1]).
  reflexivity.
Defined.
